(** * Height-weighted vertical aggregation of a CAPPI stack

    Verification of the one piece of numerical logic written in
    [notebooks/pyart/answer_question_pyart_meteoswiss.ipynb] (step 5):

<<
    weighting = np.exp(-0.5*  cappi_qpe.z['data'] / 1000)

    qpe_ground = weighting[:,None,None]*cappi_qpe.fields['radar_estimated_rain_rate']['data']
    qpe_ground = np.nansum(qpe_ground, axis = 0) / np.sum(weighting)

    plt.pcolormesh(cappi_qpe.point_longitude['data'][0],
                   cappi_qpe.point_latitude['data'][0],
                   qpe_ground, vmax = 15)
    plt.colorbar(label = 'Estimated rain rate at ground [mm/h]')
>>

    The cell is modelled on three kinds of numbers, each model for the
    statements it can carry:

    - [Np] and [Notebook]: plain arrays whose entries are real numbers or
      NaN, with exact arithmetic, and [Ma]: masked arrays, as
      [pyart.map.grid_from_radars] returns them, still with exact
      arithmetic.  Statements proved here are meant of the code where
      binary64 follows exact arithmetic: bounds with a margin, zeros,
      signs, shapes, masks and failures.  Hypotheses on the magnitude of
      the inputs keep the code away from underflow and overflow, and
      tolerances leave room for its rounding.
    - [F64]: the cell over one level and one horizontal position on
      binary64 numbers, evaluated.  It decides what rounding and underflow
      do on given inputs.
    - [Rounded]: the weights, and the cell over one level and one
      horizontal position, on real numbers with every result passed
      through a rounding function of which only the guarantees of
      binary64 are assumed.  Error bounds are proved here.

    [Kernel] runs the whole cell as the notebook does: it binds global
    names and draws on the current figure.

    The second part covers the other computations the notebooks write
    themselves: the shape of the CAPPI grid, the loop that merges the
    files of a volume, the mean wind profile with its speed and direction
    ([exercice2_swiss_doppler.ipynb]), the statistics of a quasi vertical
    profile ([wradlib_quasi_vertical_profiles.ipynb]) and the ranges built
    with [np.arange]. *)

From Stdlib Require Import String Floats.
From Stdlib Require Import Reals Lra Lia List Arith Bool ZArith Sorted QArith Qround.
From Stdlib Require Lqa.
Import ListNotations.

Local Open Scope R_scope.

(** ** Array entries *)

Inductive cell : Type :=
| NaN : cell
| Num : R -> cell.

Definition is_nan (c : cell) : bool :=
  match c with NaN => true | Num _ => false end.

Definition defined (c : cell) : Prop := exists r, c = Num r.

(** ** The numpy fragment used by the notebook *)

Module Np.

(** A 1-D array of finite reals (altitudes, weights). *)
Definition array1 := list R.

(** A 3-D array: its shape and its entries.  Entries outside the shape
    are never read. *)
Record array3 : Type := mk3 {
  shape0 : nat;
  shape1 : nat;
  shape2 : nat;
  item3 : nat -> nat -> nat -> cell
}.

Record array2 : Type := mk2 {
  rows : nat;
  cols : nat;
  item2 : nat -> nat -> cell
}.

Inductive exn : Type :=
| ValueError : exn.            (* operands could not be broadcast together *)

Inductive result (A : Type) : Type :=
| Ok : A -> result A
| Raise : exn -> result A.
Arguments Ok {A} _.
Arguments Raise {A} _.

(** [np.exp(-0.5 * z / scale)], elementwise. *)
Definition decay (scale a : R) : R := exp (-0.5 * a / scale).

Definition exp_decay (scale : R) (z : array1) : array1 :=
  map (decay scale) z.

(** Product of a real and an entry: NaN propagates. *)
Definition mul (w : R) (c : cell) : cell :=
  match c with
  | NaN => NaN
  | Num r => Num (w * r)
  end.

(** [w[:,None,None] * d]: shapes (len w, 1, 1) and (nz, ny, nx) are
    broadcast together.  The leading axes must agree or one of them must
    be 1, in which case it is stretched to the other (also to 0). *)
Definition broadcast_mul (w : array1) (d : array3) : result array3 :=
  let na := length w in
  if Nat.eqb na (shape0 d) then
    Ok (mk3 (shape0 d) (shape1 d) (shape2 d)
            (fun k i j => mul (nth k w 0) (item3 d k i j)))
  else if Nat.eqb na 1 then
    Ok (mk3 (shape0 d) (shape1 d) (shape2 d)
            (fun k i j => mul (nth 0 w 0) (item3 d k i j)))
  else if Nat.eqb (shape0 d) 1 then
    Ok (mk3 na (shape1 d) (shape2 d)
            (fun k i j => mul (nth k w 0) (item3 d 0 i j)))
  else Raise ValueError.

(** [np.nansum]: NaN entries are replaced by zero before summing. *)
Definition nan_to_zero (c : cell) : R :=
  match c with
  | NaN => 0
  | Num r => r
  end.

(** The column of a 3-D array above the horizontal position (i, j). *)
Definition column (a : array3) (i j : nat) : list cell :=
  map (fun k => item3 a k i j) (seq 0 (shape0 a)).

(** [np.nansum(a, axis = 0)] at position (i, j); the sum over an empty
    axis is 0. *)
Definition nansum0 (a : array3) (i j : nat) : R :=
  fold_right Rplus 0 (map nan_to_zero (column a i j)).

(** [np.sum] of a 1-D array; 0 for the empty array. *)
Definition sum (w : array1) : R := fold_right Rplus 0 w.

(** Division of two finite numbers.  0/0 is NaN.  A non-zero number
    over zero would be an infinity, which the entry type does not carry;
    [zero_divisor_zero_dividend] shows the cell never divides a non-zero
    sum by zero. *)
Definition true_divide (x d : R) : cell :=
  if Req_dec_T d 0 then NaN else Num (x / d).

End Np.

Import Np.

(** ** The notebook cell *)

Module Notebook.

(** The cell as a function of the decay constant and of the two arrays it
    reads.  The notebook writes the constant as the literal 1000. *)
Definition aggregate (scale : R) (z : array1) (data : array3)
  : result array2 :=
  let weighting := exp_decay scale z in
  match broadcast_mul weighting data with
  | Raise e => Raise e
  | Ok qpe_ground =>
      Ok (mk2 (shape1 qpe_ground) (shape2 qpe_ground)
              (fun i j => true_divide (nansum0 qpe_ground i j)
                                      (sum weighting)))
  end.

Definition default_scale : R := 1000.

Definition weighting (z : array1) : array1 := exp_decay default_scale z.

Definition qpe_ground (z : array1) (data : array3) : result array2 :=
  aggregate default_scale z data.

End Notebook.

Import Notebook.

(** ** Reference notions, written the way the specification states them *)

(** [big_sum n f] is f 0 + ... + f (n-1). *)
Fixpoint big_sum (n : nat) (f : nat -> R) : R :=
  match n with
  | O => 0
  | S m => big_sum m f + f m
  end.

(** The weight of level k, read positionally from the altitudes. *)
Definition weight (scale : R) (z : array1) (k : nat) : R :=
  exp (-0.5 * nth k z 0 / scale).

(** What level k adds to the numerator at one horizontal position: the
    weighted value, or zero where the value is missing. *)
Definition contribution (w : R) (c : cell) : R :=
  match c with
  | NaN => 0
  | Num r => w * r
  end.

(** Numerator and denominator of the specification's formula. *)
Definition weighted_total (scale : R) (z : array1) (g : array3) (i j : nat) : R :=
  big_sum (shape0 g) (fun k => contribution (weight scale z k) (item3 g k i j)).

Definition weight_total (scale : R) (z : array1) (nz : nat) : R :=
  big_sum nz (weight scale z).





(** ** The formula in the reciprocal of the decay constant *)



(** ** The series of the exponential *)

(** The i-th term of the series of exp(x), without its sign. *)
Definition exp_term (x : R) (i : nat) : R := x ^ i / INR (fact i).

(** Turns the factorials of a partial sum into integer literals. *)
Ltac literal_factorials H :=
  cbn [Nat.mul Nat.add sum_f_R0] in H; unfold tg_alt, exp_term in H;
  repeat match type of H with
         | context [INR (fact ?k)] =>
             let v := eval vm_compute in (Z.of_nat (fact k)) in
             replace (INR (fact k)) with (IZR v) in H
               by (rewrite INR_IZR_INZ; reflexivity)
         end.

(** ** Sample arrays *)

(** A grid with one horizontal position carrying the given column. *)
Definition grid_of_column (col : list cell) : array3 :=
  mk3 (length col) 1 1 (fun k _ _ => nth k col NaN).

(** A grid with no level over one horizontal position. *)
Definition empty_grid : array3 := mk3 0 1 1 (fun _ _ _ => NaN).

(** ** Inputs on which binary64 follows exact arithmetic

    [np.exp] underflows to 0 below about -745 and is accurate to an ulp
    elsewhere; a product or quotient is rounded with a relative error of
    at most 2^-53 unless it falls under 2^-1022 or over 2^1024. *)

(** Altitudes between 0 and [reach] decay constants: every exponent lies
    between [- reach / 2] and 0. *)
Definition altitudes_within (reach scale : R) (z : array1) : Prop :=
  forall k, (k < length z)%nat -> 0 <= nth k z 0 <= reach * scale.

(** A number that is zero or of a magnitude between 2^-400 and 2^400. *)
Definition moderate (x : R) : Prop :=
  x = 0 \/ / 2 ^ 400 <= Rabs x <= 2 ^ 400.

Definition moderate_grid (g : array3) : Prop :=
  forall k i j x, item3 g k i j = Num x -> moderate x.

(** Entries of at most 2^900 in magnitude: no sum of such entries that a
    machine can hold overflows. *)
Definition bounded_grid (g : array3) : Prop :=
  forall k i j x, item3 g k i j = Num x -> Rabs x <= 2 ^ 900.

(** The weighted mean of the magnitudes of a column, a missing value
    counting as zero: the scale against which rounding errors of a
    surface entry are measured. *)
Definition magnitude (c : cell) : R := Rabs (nan_to_zero c).

Definition weighted_magnitude (scale : R) (z : array1) (g : array3) (i j : nat) : R :=
  big_sum (shape0 g) (fun k => weight scale z k * magnitude (item3 g k i j))
  / weight_total scale z (shape0 g).


(** ** Masked arrays

    [pyart.map.grid_from_radars] returns the field as a
    [numpy.ma.MaskedArray]: the data and a mask, the grid points that no
    gate of the radar reaches being masked.  On such an array the cell
    runs through numpy.ma:

    - the product of the weights and the field carries the mask of the
      field;
    - [np.nansum] sets the NaN data to 0 and calls [MaskedArray.sum],
      which adds the data with the masked entries filled by 0, and masks
      an entry of the result when every entry along the axis is masked;
    - the division calls [numpy.ma.true_divide], which also masks the
      entries outside the domain of the safe division. *)

Module Ma.

Record array3 : Type := mk3 {
  data3 : Np.array3;
  mask3 : option (nat -> nat -> nat -> bool)     (* None is nomask *)
}.

Record array2 : Type := mk2 {
  data2 : Np.array2;
  mask2 : option (nat -> nat -> bool)
}.

Definition masked3 (a : array3) (k i j : nat) : bool :=
  match mask3 a with
  | None => false
  | Some m => m k i j
  end.

Definition masked2 (a : array2) (i j : nat) : bool :=
  match mask2 a with
  | None => false
  | Some m => m i j
  end.

(** What reading an entry gives. *)
Inductive entry : Type :=
| Masked : entry
| Shown : cell -> entry.

Definition entry2 (a : array2) (i j : nat) : entry :=
  if masked2 a i j then Masked else Shown (item2 (data2 a) i j).

(** [w[:,None,None] * d].  The mask of [d] is broadcast with the data;
    under the mask the data of the result are those of the first
    operand. *)
Definition broadcast_mul (w : array1) (d : array3) : result array3 :=
  match Np.broadcast_mul w (data3 d) with
  | Raise e => Raise e
  | Ok p =>
      let level := fun k => if Nat.eqb (shape0 (data3 d)) 1 then 0%nat else k in
      let first := fun k => if Nat.eqb (length w) 1 then nth 0 w 0 else nth k w 0 in
      match mask3 d with
      | None => Ok (mk3 p None)
      | Some m =>
          Ok (mk3 (Np.mk3 (shape0 p) (shape1 p) (shape2 p)
                     (fun k i j =>
                        if m (level k) i j then Num (first k) else item3 p k i j))
                  (Some (fun k i j => m (level k) i j)))
      end
  end.

(** The column above (i, j) as [MaskedArray.sum] adds it, after
    [np.nansum] has zeroed the NaN data: masked entries are filled
    with 0. *)
Definition filled_column (a : array3) (i j : nat) : list R :=
  map (fun k => if masked3 a k i j then 0 else nan_to_zero (item3 (data3 a) k i j))
      (seq 0 (shape0 (data3 a))).

Definition nansum0 (a : array3) (i j : nat) : R :=
  fold_right Rplus 0 (filled_column a i j).

(** The mask of the sum: every entry along the axis masked; [nomask]
    stays [nomask]. *)
Definition column_masked (a : array3) (i j : nat) : bool :=
  match mask3 a with
  | None => false
  | Some m => forallb (fun k => m k i j) (seq 0 (shape0 (data3 a)))
  end.

(** [np.finfo(float).tiny], the tolerance of the safe division. *)
Definition tiny : R := / 2 ^ 1022.

(** Outside the domain of the safe division of a by b: |a| * tiny >= |b|,
    which includes every division by zero. *)
Definition domain_safe_divide (a b : R) : bool :=
  if Rle_dec (Rabs b) (Rabs a * tiny) then true else false.

(** [np.nansum(qpe_ground, axis = 0) / np.sum(weighting)].  The result
    always carries a mask; under the mask its data are the dividend. *)
Definition surface (weighting : array1) (qpe_ground : array3) : array2 :=
  let total := Np.sum weighting in
  let m := fun i j =>
    domain_safe_divide (nansum0 qpe_ground i j) total
    || column_masked qpe_ground i j in
  mk2 (Np.mk2 (shape1 (data3 qpe_ground)) (shape2 (data3 qpe_ground))
         (fun i j =>
            if m i j then Num (nansum0 qpe_ground i j)
            else true_divide (nansum0 qpe_ground i j) total))
      (Some m).

Definition aggregate (scale : R) (z : array1) (data : array3) : result array2 :=
  let weighting := exp_decay scale z in
  match broadcast_mul weighting data with
  | Raise e => Raise e
  | Ok qpe_ground => Ok (surface weighting qpe_ground)
  end.

Definition qpe_ground (z : array1) (data : array3) : result array2 :=
  aggregate default_scale z data.

(** The numerator of the formula on a masked column: masked entries and
    NaN data add nothing. *)
Definition weighted_total (scale : R) (z : array1) (g : array3) (i j : nat) : R :=
  big_sum (shape0 (data3 g))
    (fun k => if masked3 g k i j then 0
              else contribution (weight scale z k) (item3 (data3 g) k i j)).

(** The weighted mean of the magnitudes of a masked column, masked
    entries and NaN data counting as zero. *)
Definition weighted_magnitude (scale : R) (z : array1) (g : array3) (i j : nat) : R :=
  big_sum (shape0 (data3 g))
    (fun k => if masked3 g k i j then 0
              else weight scale z k * magnitude (item3 (data3 g) k i j))
  / weight_total scale z (shape0 (data3 g)).

(** Every level above (i, j) is masked. *)
Definition whole_column_masked (g : array3) (i j : nat) : Prop :=
  forall k, (k < shape0 (data3 g))%nat -> masked3 g k i j = true.

(** The entries that are not masked are at most [bound] in magnitude. *)
Definition bounded_by (bound : R) (g : array3) : Prop :=
  forall k i j x, masked3 g k i j = false -> item3 (data3 g) k i j = Num x ->
    Rabs x <= bound.

(** A masked grid over one horizontal position: for each level, whether
    it is masked and its data. *)
Definition grid_of_column (col : list (bool * cell)) : array3 :=
  mk3 (Np.mk3 (length col) 1 1 (fun k _ _ => snd (nth k col (false, NaN))))
      (Some (fun k _ _ => fst (nth k col (false, NaN)))).

End Ma.

(** ** The cell in the kernel

    The cell is run for its effects: it binds the global names
    [weighting] and [qpe_ground], the latter twice, and draws on
    matplotlib's current figure. *)

Module Kernel.

Inductive ndarray : Type :=
| A2 : Ma.array2 -> ndarray
| A3 : Ma.array3 -> ndarray.

(** The calls that reach the current figure. *)
Inductive call : Type :=
| pcolormesh (X Y : array2) (C : Ma.array2) (vmax : R)
| colorbar (label : string).

Inductive exn : Type :=
| ValueError : exn             (* operands could not be broadcast together *)
| IndexError : exn.            (* index 0 is out of bounds for axis 0 with size 0 *)

(** The names of the kernel the cell touches: those of the arrays of
    [cappi_qpe] it reads and the two it binds. *)
Record namespace : Type := mkns {
  cappi_z : array1;                 (* cappi_qpe.z['data'] *)
  cappi_rain : Ma.array3;           (* ...fields['radar_estimated_rain_rate']['data'] *)
  point_longitude : array3;         (* cappi_qpe.point_longitude['data'] *)
  point_latitude : array3;          (* cappi_qpe.point_latitude['data'] *)
  var_weighting : option array1;
  var_qpe_ground : option ndarray
}.

(** The kernel: its names and what has been drawn on the current figure. *)
Record state : Type := mkstate {
  names : namespace;
  figure : list call
}.

Definition bind_weighting (w : array1) (ns : namespace) : namespace :=
  mkns (cappi_z ns) (cappi_rain ns) (point_longitude ns) (point_latitude ns)
       (Some w) (var_qpe_ground ns).

Definition bind_qpe_ground (a : ndarray) (ns : namespace) : namespace :=
  mkns (cappi_z ns) (cappi_rain ns) (point_longitude ns) (point_latitude ns)
       (var_weighting ns) (Some a).

(** [a[0]]: the first level, a new view; IndexError ([None]) when there is
    no level. *)
Definition first_level (a : array3) : option array2 :=
  if Nat.eqb (shape0 a) 0 then None
  else Some (Np.mk2 (shape1 a) (shape2 a) (fun i j => item3 a 0 i j)).

Definition label : string := "Estimated rain rate at ground [mm/h]".

(** Running the cell: the kernel afterwards, and the exception that
    stopped it, if any.  A failure of the product leaves [weighting]
    bound and [qpe_ground] as it was; a failure of [[0]] leaves both
    names bound and draws nothing.  What matplotlib checks of the shapes
    it is given is not modelled. *)
Definition run_cell (k : state) : state * option exn :=
  let ns := names k in
  let w := exp_decay default_scale (cappi_z ns) in
  let ns1 := bind_weighting w ns in
  match Ma.broadcast_mul w (cappi_rain ns1) with
  | Raise _ => (mkstate ns1 (figure k), Some ValueError)
  | Ok p =>
      let ns2 := bind_qpe_ground (A3 p) ns1 in
      let s := Ma.surface w p in
      let ns3 := bind_qpe_ground (A2 s) ns2 in
      match first_level (point_longitude ns3), first_level (point_latitude ns3) with
      | Some X, Some Y =>
          (mkstate ns3 (figure k ++ [pcolormesh X Y s 15; colorbar label]), None)
      | _, _ => (mkstate ns3 (figure k), Some IndexError)
      end
  end.

(** Two kernels in which the arrays the cell reads are the same. *)
Definition same_inputs (k k' : state) : Prop :=
  cappi_z (names k) = cappi_z (names k') /\
  cappi_rain (names k) = cappi_rain (names k') /\
  point_longitude (names k) = point_longitude (names k') /\
  point_latitude (names k) = point_latitude (names k').

(** A grid of coordinates with one level over one horizontal position. *)
Definition coordinates (x : R) : array3 := Np.mk3 1 1 1 (fun _ _ _ => Num x).

(** A fresh kernel, and one where both names of the cell are already
    bound and something has been drawn. *)
Definition fresh_kernel : state :=
  mkstate (mkns [500; 600] (Ma.grid_of_column [(false, Num 3); (true, Num 0)])
                (coordinates 8) (coordinates 46) None None)
          [].

Definition used_kernel : state :=
  mkstate (mkns [500; 600] (Ma.grid_of_column [(false, Num 3); (true, Num 0)])
                (coordinates 8) (coordinates 46) (Some [1])
                (Some (A3 (Ma.mk3 empty_grid None))))
          [colorbar "dBZ"].

End Kernel.

(** ** The cell on binary64 numbers

    One level over one horizontal position, with the operations of
    binary64 as the processor rounds them. *)

Module F64.

(** [np.exp] where its value is the same for every implementation that
    is accurate to an ulp: 1 for arguments under 2^-54 in magnitude, 0
    under -746; and at -0.25, where it is 0.7788007830714049.  Other
    arguments are not tabulated ([None]). *)
Definition np_exp (x : float) : option float :=
  if PrimFloat.ltb (PrimFloat.abs x) 0x1p-54%float then Some 1%float
  else if PrimFloat.ltb x (-746)%float then Some 0%float
  else if PrimFloat.eqb x (-0.25)%float then Some 0x1.8ebef9eac820bp-1%float
  else None.

(** [np.exp(-0.5 * a / scale)]. *)
Definition weight (scale a : float) : option float :=
  np_exp (-0.5 * a / scale)%float.

Definition weighting (scale : float) (z : list float) : list (option float) :=
  map (weight scale) z.

(** [np.nansum] over the single level: a NaN product becomes 0. *)
Definition nan_to_zero (x : float) : float :=
  if PrimFloat.eqb x x then x else 0%float.

(** [np.nansum(w * g, axis = 0) / np.sum(w)] for the single weight w and
    the single value g. *)
Definition surface (w g : float) : float :=
  (nan_to_zero (w * g) / w)%float.

Definition qpe_ground (a g : float) : option float :=
  match weight 1000 a with
  | None => None
  | Some w => Some (surface w g)
  end.

(** 0.1 and the next binary64 number after it. *)
Definition tenth : float := 0x1.999999999999ap-4%float.
Definition tenth_next : float := 0x1.999999999999bp-4%float.

End F64.

(** ** The cell with rounded operations

    The weights, and the cell over one level and one horizontal position,
    with the result of each product and quotient passed through a
    rounding function; the sum over the single level and the sum of the
    single weight add nothing. *)

Module Rounded.

Definition surface (rnd : R -> R) (w g : R) : R := rnd (rnd (w * g) / w).

(** What rounding to nearest in binary64 guarantees: zero is kept, and a
    result between 2^-1022 and 2^1023 in magnitude is off by at most
    2^-53 of itself. *)
Definition to_nearest (rnd : R -> R) : Prop :=
  rnd 0 = 0 /\
  forall t, / 2 ^ 1022 <= Rabs t <= 2 ^ 1023 ->
    Rabs (rnd t - t) <= / 2 ^ 53 * Rabs t.


(** [np.exp(-0.5 * a / scale)]: the product and the quotient are
    rounded, and the exponential is that of the platform. *)
Definition weight (rnd fexp : R -> R) (scale a : R) : R :=
  fexp (rnd (rnd (-0.5 * a) / scale)).


End Rounded.

(** ** The CAPPI grid shape

    [exercice2_swiss_doppler.ipynb] and
    [answer_question_pyart_meteoswiss.ipynb] derive the number of grid
    points on each axis from the limits and the requested resolution:

<<
    ny = int((ymax-ymin)/cappi_res_h)+1
    nx = int((xmax-xmin)/cappi_res_h)+1
    nz = int((zmax-zmin)/cappi_res_v)+1
>>
*)

Module Cappi.

(** What the statement [n = int((hi - lo) / res) + 1] does. *)
Inductive outcome (A : Type) : Type :=
| Returns : A -> outcome A
| ZeroDivisionError : outcome A        (* division by zero *)
| Rounded : outcome A.                 (* see [axis_points] *)
Arguments Returns {A} _.
Arguments ZeroDivisionError {A}.
Arguments Rounded {A}.

(** [int((hi - lo) / res) + 1] on Python integers.  [/] is true division:
    the quotient is the binary64 number nearest to the exact one, and
    [int] truncates it toward zero.  A zero resolution raises
    ZeroDivisionError.  When the extent and the resolution are below 2^52
    in magnitude, no integer lies between the exact quotient and the
    rounded one, so the result is the truncated exact quotient.  Beyond
    that the quotient may be rounded across an integer, or be too large
    for a float (OverflowError); these operands are not modelled
    ([Rounded]). *)
Definition axis_points (lo hi res : Z) : outcome Z :=
  if Z.eqb res 0 then ZeroDivisionError
  else if (Z.abs (hi - lo) <? 2 ^ 52)%Z && (Z.abs res <? 2 ^ 52)%Z then
    Returns (Z.quot (hi - lo) res + 1)%Z
  else Rounded.

(** [grid_shape = (nz, ny, nx)], the three statements in the order of the
    cell: the first one that does not return stops it. *)
Definition grid_shape (zmin zmax ymin ymax xmin xmax cappi_res_h cappi_res_v : Z)
  : outcome (Z * Z * Z) :=
  match axis_points ymin ymax cappi_res_h with
  | ZeroDivisionError => ZeroDivisionError
  | Rounded => Rounded
  | Returns ny =>
      match axis_points xmin xmax cappi_res_h with
      | ZeroDivisionError => ZeroDivisionError
      | Rounded => Rounded
      | Returns nx =>
          match axis_points zmin zmax cappi_res_v with
          | ZeroDivisionError => ZeroDivisionError
          | Rounded => Rounded
          | Returns nz => Returns (nz, ny, nx)
          end
      end
  end.

End Cappi.

(** ** Merging the sweeps of a volume

    Both notebooks read the files of a volume in sorted order and join
    them:

<<
    for i,f in enumerate(files_radar):
        radar = pyart.io.read_cfradial(f)
        if i == 0:
            radar_merged = radar
        else:
            radar_merged = pyart.util.join_radar(radar_merged, radar)
>>

    The reader and [join_radar] belong to Py-ART and are parameters;
    [join_radar] returns a new object and leaves its arguments alone. *)

Module Volume.

(** The two names the loop binds. *)
Record kernel (radar : Type) : Type := mkkernel {
  var_radar : option radar;
  var_radar_merged : option radar
}.
Arguments mkkernel {radar} _ _.
Arguments var_radar {radar} _.
Arguments var_radar_merged {radar} _.

Inductive pyerr : Type :=
| NameError : pyerr.            (* name 'radar_merged' is not defined *)

(** [enumerate(files_radar)]. *)
Definition enumerate {A : Type} (l : list A) : list (nat * A) :=
  combine (seq 0 (length l)) l.

(** One iteration.  Reading an unbound [radar_merged] in the else branch
    would raise NameError, after [radar] has been bound. *)
Definition loop_body {file radar : Type}
  (read_cfradial : file -> radar) (join_radar : radar -> radar -> radar)
  (i : nat) (f : file) (k : kernel radar) : kernel radar * option pyerr :=
  let radar := read_cfradial f in
  if Nat.eqb i 0 then
    (mkkernel (Some radar) (Some radar), None)
  else
    match var_radar_merged k with
    | Some radar_merged =>
        (mkkernel (Some radar) (Some (join_radar radar_merged radar)), None)
    | None => (mkkernel (Some radar) None, Some NameError)
    end.

Fixpoint run_loop {file radar : Type}
  (read_cfradial : file -> radar) (join_radar : radar -> radar -> radar)
  (k : kernel radar) (l : list (nat * file)) : kernel radar * option pyerr :=
  match l with
  | [] => (k, None)
  | (i, f) :: rest =>
      match loop_body read_cfradial join_radar i f k with
      | (k', None) => run_loop read_cfradial join_radar k' rest
      | (k', Some e) => (k', Some e)
      end
  end.

Definition merge_files {file radar : Type}
  (read_cfradial : file -> radar) (join_radar : radar -> radar -> radar)
  (k : kernel radar) (files_radar : list file) : kernel radar * option pyerr :=
  run_loop read_cfradial join_radar k (enumerate files_radar).

End Volume.

(** ** Reductions that skip NaN

    [np.nanmean] in the wind retrieval of [exercice2_swiss_doppler.ipynb];
    [mean], [min], [max] and [median] with [skipna=True] in
    [wradlib_quasi_vertical_profiles.ipynb]. *)

Module Reduce.

(** The entries that are not NaN, in order. *)
Fixpoint values (col : list cell) : list R :=
  match col with
  | [] => []
  | NaN :: rest => values rest
  | Num r :: rest => r :: values rest
  end.

(** The sum with NaN replaced by zero, over the number of entries that
    are not NaN; 0/0 is NaN. *)
Definition nanmean (col : list cell) : cell :=
  true_divide (fold_right Rplus 0 (map nan_to_zero col))
              (INR (length (values col))).

(** [min] and [max] with [skipna=True].  Over an axis of length zero
    they raise ValueError (zero-size array to reduction operation); over
    entries that are all NaN they answer NaN. *)
Definition nanmin (col : list cell) : result cell :=
  match col with
  | [] => Raise ValueError
  | _ :: _ =>
      match values col with
      | [] => Ok NaN
      | x :: l => Ok (Num (fold_left Rmin l x))
      end
  end.

Definition nanmax (col : list cell) : result cell :=
  match col with
  | [] => Raise ValueError
  | _ :: _ =>
      match values col with
      | [] => Ok NaN
      | x :: l => Ok (Num (fold_left Rmax l x))
      end
  end.

Fixpoint insert (x : R) (l : list R) : list R :=
  match l with
  | [] => [x]
  | y :: l' => if Rle_dec x y then x :: l else y :: insert x l'
  end.

Fixpoint sort (l : list R) : list R :=
  match l with
  | [] => []
  | x :: l' => insert x (sort l')
  end.

(** The middle of the sorted values, or the mean of the two middle ones. *)
Definition nanmedian (col : list cell) : cell :=
  let s := sort (values col) in
  let n := length s in
  if Nat.eqb n 0 then NaN
  else if Nat.odd n then Num (nth (n / 2) s 0)
  else Num ((nth (n / 2 - 1) s 0 + nth (n / 2) s 0) / 2).

End Reduce.

(** ** The wind profile from the VAD retrievals

<<
    u_avg = np.nanmean(np.array(u_allsweeps), axis = 0)
    v_avg = np.nanmean(np.array(v_allsweeps), axis = 0)
    orientation = np.rad2deg(np.arctan2(-u_avg, -v_avg))%360
    speed = np.sqrt(u_avg**2 + v_avg**2)
>>
*)

Module Vad.

(** What [np.nanmean(np.array(...), axis = 0)] returns: a value per level,
    or a single value when the list of sweeps is empty. *)
Inductive profile : Type :=
| Scalar : cell -> profile
| Vector : list cell -> profile.

(** The entries of all sweeps at level j. *)
Definition level (j : nat) (allsweeps : list (list cell)) : list cell :=
  map (fun s => nth j s NaN) allsweeps.

(** [np.array] of an empty list has shape (0,), and its mean along axis 0
    is the scalar NaN.  Profiles of different lengths do not stack
    ([None]: ValueError). *)
Definition nanmean_axis0 (allsweeps : list (list cell)) : option profile :=
  match allsweeps with
  | [] => Some (Scalar NaN)
  | s0 :: rest =>
      if forallb (fun s => Nat.eqb (length s) (length s0)) rest then
        Some (Vector (map (fun j => Reduce.nanmean (level j allsweeps))
                          (seq 0 (length s0))))
      else None
  end.

Definition negate (c : cell) : cell :=
  match c with
  | NaN => NaN
  | Num r => Num (- r)
  end.

(** The angle of the point (x, y), in [-pi, pi].  At the origin numpy
    answers by the signs of the two zeros.  The zero of the model stands
    for +0.0, whose negation the code passes: [arctan2(-0.0, -0.0)] is
    -pi. *)
Definition arctan2 (y x : R) : R :=
  if Rlt_dec 0 x then atan (y / x)
  else if Rlt_dec x 0 then
    if Rle_dec 0 y then atan (y / x) + PI else atan (y / x) - PI
  else
    if Rlt_dec 0 y then PI / 2
    else if Rlt_dec y 0 then - (PI / 2)
    else - PI.

Definition rad2deg (x : R) : R := x * (180 / PI).

(** [x % m] on floats: the remainder has the sign of the divisor.  The
    exact remainder is below m; binary64 rounds that of a tiny negative x
    to m itself. *)
Definition remainder (x m : R) : R := x - m * IZR (Zfloor (x / m)).

Definition orientation (u_avg v_avg : cell) : cell :=
  match negate u_avg, negate v_avg with
  | Num y, Num x => Num (remainder (rad2deg (arctan2 y x)) 360)
  | _, _ => NaN
  end.

Definition speed (u_avg v_avg : cell) : cell :=
  match u_avg, v_avg with
  | Num u, Num v => Num (sqrt (u ^ 2 + v ^ 2))
  | _, _ => NaN
  end.

(** The retrieval loop of the wind profile: one profile of u (or v) per
    file, the first four files being skipped.

<<
    for i,f in enumerate(files_radar[4:]):
        ...
        vad = pyart.retrieve.vad_browning(radar, 'corrected_velocity_neg', z_want = zlevels)
        u_allsweeps.append(vad.u_wind)
>>

    [wind_of] stands for reading, dealiasing and the Py-ART retrieval. *)
Definition vad_profiles {file : Type} (wind_of : file -> list cell)
  (files_radar : list file) : list (list cell) :=
  map wind_of (skipn 4 files_radar).

End Vad.

(** ** Statistics of a quasi vertical profile

<<
    stats = ["median", "mean", "min", "max"]
    stat = [
        getattr(ts.where(ts.RHOHV > 0.8), st)("azimuth", skipna=True, keep_attrs=True)
        for st in stats
    ]
>>

    One variable at one time and range: its entries along the azimuth,
    beside those of RHOHV. *)

Module Qvp.

(** [RHOHV > thr]; a comparison with NaN is false. *)
Definition above (thr : R) (rhohv : cell) : bool :=
  match rhohv with
  | NaN => false
  | Num r => if Rlt_dec thr r then true else false
  end.

(** [ts.where(ts.RHOHV > thr)]: entries where the condition fails become
    NaN. *)
Definition where_above (thr : R) (rhohv vals : list cell) : list cell :=
  map (fun p => if above thr (fst p) then snd p else NaN) (combine rhohv vals).

(** The four reductions along the azimuth, in the order of [stats]; the
    first one that raises stops the list comprehension. *)
Definition azimuth_stats (thr : R) (rhohv vals : list cell) : result (list cell) :=
  let kept := where_above thr rhohv vals in
  let median := Reduce.nanmedian kept in
  let mean := Reduce.nanmean kept in
  match Reduce.nanmin kept with
  | Raise e => Raise e
  | Ok min =>
      match Reduce.nanmax kept with
      | Raise e => Raise e
      | Ok max => Ok [median; mean; min; max]
      end
  end.

End Qvp.

(** ** [np.arange]

    [np.arange(100,5000,100)] (the levels of the wind profile),
    [np.arange(-30, 80, 5)] (contour levels), and the ticks and bin
    boundaries of the hydrometeor classes:

<<
    ticks = np.arange(len(labels))
    boundaries = np.arange(-0.5, len(labels) )
>>
*)

Module Arange.

(** [ceil((stop - start) / step)] values, the i-th being
    [start + i * step]; none when that count is not positive.  A zero step
    raises ([None]). *)
Definition arange (start stop step : Q) : option (list Q) :=
  if Qeq_bool step 0 then None
  else
    Some (map (fun i => (start + inject_Z (Z.of_nat i) * step)%Q)
              (seq 0 (Z.to_nat (Qceiling ((stop - start) / step))))).

Definition ticks {A : Type} (labels : list A) : option (list Q) :=
  arange 0 (inject_Z (Z.of_nat (length labels))) 1.

Definition boundaries {A : Type} (labels : list A) : option (list Q) :=
  arange (-1 # 2) (inject_Z (Z.of_nat (length labels))) 1.

End Arange.

(** ** Elementary facts *)

Lemma decay_pos scale a : 0 < decay scale a.
Proof. apply exp_pos. Qed.

Lemma exp_decay_length scale z : length (exp_decay scale z) = length z.
Proof. apply length_map. Qed.

Lemma nth_exp_decay scale z k :
  (k < length z)%nat -> nth k (exp_decay scale z) 0 = weight scale z k.
Proof.
  intros Hk. unfold exp_decay, weight.
  rewrite (nth_indep _ 0 (decay scale 0)) by (rewrite length_map; exact Hk).
  rewrite map_nth. reflexivity.
Qed.

Lemma sum_nonneg w : Forall (fun x => 0 < x) w -> 0 <= sum w.
Proof.
  induction 1 as [|x l Hx _ IH]; simpl; lra.
Qed.

Lemma sum_pos w : Forall (fun x => 0 < x) w -> w <> [] -> 0 < sum w.
Proof.
  intros H Hne. destruct H as [|x l Hx Hl]; [congruence|].
  simpl. pose proof (sum_nonneg l Hl). lra.
Qed.

Lemma exp_decay_all_pos scale z : Forall (fun x => 0 < x) (exp_decay scale z).
Proof.
  unfold exp_decay. apply Forall_forall. intros x Hx.
  apply in_map_iff in Hx. destruct Hx as [a [<- _]]. apply decay_pos.
Qed.

Lemma sum_exp_decay_pos scale z : z <> [] -> 0 < sum (exp_decay scale z).
Proof.
  intros Hz. apply sum_pos; [apply exp_decay_all_pos|].
  destruct z; [congruence|discriminate].
Qed.

(** A fold over [seq] is the indexed sum. *)
Lemma fold_seq_big_sum (f : nat -> R) n :
  fold_right Rplus 0 (map f (seq 0 n)) = big_sum n f.
Proof.
  induction n as [|n IH]; [reflexivity|].
  rewrite seq_S, map_app, fold_right_app.
  cbn [big_sum map fold_right Nat.add]. rewrite <- IH. clear IH.
  generalize (f n) as x. generalize (map f (seq 0 n)) as l.
  induction l as [|y l IHl]; intros x; simpl; [lra|].
  rewrite IHl. lra.
Qed.

Lemma sum_big_sum (w : array1) :
  sum w = big_sum (length w) (fun k => nth k w 0).
Proof.
  unfold sum. rewrite <- fold_seq_big_sum. f_equal.
  induction w as [|x w IH]; simpl; [reflexivity|].
  f_equal. rewrite <- seq_shift, map_map. exact IH.
Qed.

Lemma big_sum_ext n f g :
  (forall k, (k < n)%nat -> f k = g k) -> big_sum n f = big_sum n g.
Proof.
  induction n as [|n IH]; intros H; simpl; [reflexivity|].
  rewrite IH by (intros; apply H; lia). rewrite H by lia. reflexivity.
Qed.

Lemma nansum0_big_sum a i j :
  nansum0 a i j = big_sum (shape0 a) (fun k => nan_to_zero (item3 a k i j)).
Proof.
  unfold nansum0, column. rewrite map_map. apply fold_seq_big_sum.
Qed.

Lemma nan_to_zero_mul w c : nan_to_zero (mul w c) = w * nan_to_zero c.
Proof. destruct c; simpl; lra. Qed.

(** ** The cell on matching shapes *)

Lemma contribution_nan_to_zero w c : contribution w c = w * nan_to_zero c.
Proof. destruct c; simpl; lra. Qed.

Lemma broadcast_mul_matched w g :
  length w = shape0 g ->
  broadcast_mul w g =
    Ok (mk3 (shape0 g) (shape1 g) (shape2 g)
            (fun k i j => mul (nth k w 0) (item3 g k i j))).
Proof.
  intros H. unfold broadcast_mul. rewrite H, Nat.eqb_refl. reflexivity.
Qed.

Lemma aggregate_matched scale z g :
  length z = shape0 g ->
  aggregate scale z g =
    Ok (mk2 (shape1 g) (shape2 g)
            (fun i j =>
               true_divide
                 (nansum0 (mk3 (shape0 g) (shape1 g) (shape2 g)
                            (fun k i j => mul (nth k (exp_decay scale z) 0)
                                              (item3 g k i j))) i j)
                 (sum (exp_decay scale z)))).
Proof.
  intros H. unfold aggregate.
  rewrite broadcast_mul_matched by (rewrite exp_decay_length; exact H).
  reflexivity.
Qed.

Lemma numerator_matched scale z g i j :
  length z = shape0 g ->
  nansum0 (mk3 (shape0 g) (shape1 g) (shape2 g)
             (fun k i j => mul (nth k (exp_decay scale z) 0) (item3 g k i j)))
          i j
  = weighted_total scale z g i j.
Proof.
  intros H. rewrite nansum0_big_sum. cbn [shape0 item3].
  unfold weighted_total. apply big_sum_ext. intros k Hk.
  rewrite nan_to_zero_mul, contribution_nan_to_zero.
  rewrite nth_exp_decay by lia. reflexivity.
Qed.

Lemma denominator_matched scale z :
  sum (exp_decay scale z) = weight_total scale z (length z).
Proof.
  rewrite sum_big_sum, exp_decay_length. unfold weight_total.
  apply big_sum_ext. intros k Hk. apply nth_exp_decay. exact Hk.
Qed.

Lemma true_divide_nonzero x d : d <> 0 -> true_divide x d = Num (x / d).
Proof.
  intros Hd. unfold true_divide. destruct (Req_dec_T d 0); [contradiction|reflexivity].
Qed.

Lemma true_divide_zero x : true_divide x 0 = NaN.
Proof.
  unfold true_divide. destruct (Req_dec_T 0 0); [reflexivity|contradiction].
Qed.

Lemma nonempty_of_length (z : array1) n : length z = n -> (1 <= n)%nat -> z <> [].
Proof. intros H Hn ->. simpl in H. lia. Qed.

(** The value of one surface entry when the shapes match and there is at
    least one level. *)
Lemma surface_entry scale z g i j :
  (1 <= shape0 g)%nat -> length z = shape0 g ->
  true_divide
    (nansum0 (mk3 (shape0 g) (shape1 g) (shape2 g)
               (fun k i j => mul (nth k (exp_decay scale z) 0) (item3 g k i j)))
             i j)
    (sum (exp_decay scale z))
  = Num (weighted_total scale z g i j / weight_total scale z (shape0 g)).
Proof.
  intros Hnz Hlen.
  pose proof (sum_exp_decay_pos scale z (nonempty_of_length z _ Hlen Hnz)) as Hpos.
  rewrite true_divide_nonzero by lra.
  rewrite numerator_matched by exact Hlen.
  rewrite denominator_matched, Hlen. reflexivity.
Qed.

(** The only zero divisor is the empty sum of weights, and then the
    product has no level, so the dividend is the empty sum too. *)
Lemma zero_divisor_zero_dividend scale z g p i j :
  broadcast_mul (exp_decay scale z) g = Ok p ->
  sum (exp_decay scale z) = 0 ->
  nansum0 p i j = 0.
Proof.
  intros Hp Hs.
  destruct z as [|a z].
  - unfold broadcast_mul in Hp. simpl in Hp.
    destruct (shape0 g) as [|[|n]] eqn:E; simpl in Hp; inversion Hp; subst;
      unfold nansum0, column; simpl; try rewrite E; reflexivity.
  - pose proof (sum_exp_decay_pos scale (a :: z)) as H.
    assert (a :: z <> []) as Hne by discriminate.
    specialize (H Hne). lra.
Qed.

(** ** The surface formula *)

Lemma aggregate_entries (scale : R) (z : array1) (g : array3) :
  (1 <= shape0 g)%nat -> length z = shape0 g ->
  exists s,
    aggregate scale z g = Ok s /\
    rows s = shape1 g /\ cols s = shape2 g /\
    forall i j,
      item2 s i j =
        Num (weighted_total scale z g i j / weight_total scale z (shape0 g)).
Proof.
  intros Hnz Hlen. eexists. split; [apply aggregate_matched; exact Hlen|].
  cbn [rows cols item2]. repeat split.
  intros i j. apply surface_entry; assumption.
Qed.

Lemma big_sum_zero n : big_sum n (fun _ => 0) = 0.
Proof.
  induction n as [|n IH]; simpl; [reflexivity|]. rewrite IH. lra.
Qed.

Lemma weighted_total_all_missing scale z g i j :
  (forall k, (k < shape0 g)%nat -> item3 g k i j = NaN) ->
  weighted_total scale z g i j = 0.
Proof.
  intros H. unfold weighted_total.
  rewrite (big_sum_ext _ _ (fun _ => 0)).
  - apply big_sum_zero.
  - intros k Hk. rewrite H by exact Hk. reflexivity.
Qed.

(** ** The weights *)


(** ** Homogeneity *)

Lemma big_sum_scal c n f : big_sum n (fun k => c * f k) = c * big_sum n f.
Proof.
  induction n as [|n IH]; simpl; [lra|]. rewrite IH. lra.
Qed.

(** ** Failures *)



(** Three altitudes against two levels cannot be broadcast. *)
Example three_altitudes_two_levels :
  qpe_ground [0; 100; 200] (grid_of_column [Num 1; Num 2]) = Raise ValueError.
Proof. reflexivity. Qed.



(** ** Dependence on the decay constant *)

(** The weight of a level in the reciprocal of the decay constant. *)
Lemma weight_reciprocal scale z k :
  weight scale z k = exp (-0.5 * nth k z 0 * / scale).
Proof. reflexivity. Qed.













(** ** A worked example: three levels, 1000 m apart *)

(** *** Enclosing exp(-x) by partial sums of its series *)

Lemma exp_term_decreasing x : 0 <= x <= 1 -> Un_decreasing (exp_term x).
Proof.
  intros [H0 H1] n. unfold exp_term.
  assert (0 <= x ^ n) as Hp by (apply pow_le; exact H0).
  assert (0 < / INR (fact n)) as Hf by (apply Rinv_0_lt_compat, INR_fact_lt_0).
  assert (/ INR (fact (S n)) <= / INR (fact n)) as Hinv.
  { apply Rinv_le_contravar; [apply INR_fact_lt_0|].
    apply le_INR, fact_le. lia. }
  assert (0 < / INR (fact (S n))) as Hf' by (apply Rinv_0_lt_compat, INR_fact_lt_0).
  unfold Rdiv. cbn [pow].
  apply Rle_trans with (x ^ n * / INR (fact (S n))).
  - apply Rmult_le_compat_r; [lra|]. nra.
  - apply Rmult_le_compat_l; assumption.
Qed.

Lemma exp_neg_series x :
  Un_cv (fun N => sum_f_R0 (tg_alt (exp_term x)) N) (exp (- x)).
Proof.
  unfold exp. destruct (exist_exp (- x)) as [l Hl]. simpl.
  intros eps Heps. destruct (Hl eps Heps) as [N HN]. exists N. intros n Hn.
  rewrite (sum_eq _ (fun i => / INR (fact i) * (- x) ^ i)); [apply HN, Hn|].
  intros i _. unfold tg_alt, exp_term.
  replace (- x) with (-1 * x) by lra. rewrite Rpow_mult_distr.
  unfold Rdiv. ring.
Qed.

(** For x between 0 and 1 the terms decrease, so the odd and even partial
    sums of the alternating series enclose exp(-x). *)
Lemma exp_neg_enclosure x N :
  0 <= x <= 1 ->
  sum_f_R0 (tg_alt (exp_term x)) (S (2 * N)) <= exp (- x)
  <= sum_f_R0 (tg_alt (exp_term x)) (2 * N).
Proof.
  intros Hx. apply alternated_series_ineq.
  - apply exp_term_decreasing, Hx.
  - apply (cv_speed_pow_fact x).
  - apply exp_neg_series.
Qed.

Lemma exp_minus_half_bounds : 0.60653 <= exp (- (1 / 2)) <= 0.60654.
Proof.
  assert (0 <= 1 / 2 <= 1) as Hx by lra.
  pose proof (exp_neg_enclosure (1 / 2) 3 Hx) as H.
  literal_factorials H. lra.
Qed.

Lemma exp_minus_one_bounds : 0.367879 <= exp (- (1)) <= 0.367882.
Proof.
  assert (0 <= 1 <= 1) as Hx by lra.
  pose proof (exp_neg_enclosure 1 4 Hx) as H.
  literal_factorials H. lra.
Qed.

(** *** The three weights *)

Lemma weight_at_0 : weight default_scale [0; 1000; 2000] 0 = 1.
Proof.
  unfold weight, default_scale. cbn [nth].
  replace (-0.5 * 0 / 1000) with 0 by lra. apply exp_0.
Qed.

Lemma weight_at_1000 : weight default_scale [0; 1000; 2000] 1 = exp (- (1 / 2)).
Proof.
  unfold weight, default_scale. cbn [nth]. f_equal. lra.
Qed.

Lemma weight_at_2000 : weight default_scale [0; 1000; 2000] 2 = exp (- (1)).
Proof.
  unfold weight, default_scale. cbn [nth]. f_equal. lra.
Qed.

Lemma sample_weighting :
  weighting [0; 1000; 2000] = [1; exp (- (1 / 2)); exp (- (1))].
Proof.
  unfold weighting, exp_decay. cbn [map].
  change (decay default_scale 0) with (weight default_scale [0; 1000; 2000] 0).
  change (decay default_scale 1000) with (weight default_scale [0; 1000; 2000] 1).
  change (decay default_scale 2000) with (weight default_scale [0; 1000; 2000] 2).
  rewrite weight_at_0, weight_at_1000, weight_at_2000. reflexivity.
Qed.

Lemma sample_surface (col : list cell) :
  length col = 3%nat ->
  exists s,
    qpe_ground [0; 1000; 2000] (grid_of_column col) = Ok s /\
    item2 s 0%nat 0%nat =
      Num ((contribution 1 (nth 0 col NaN)
            + contribution (exp (- (1 / 2))) (nth 1 col NaN)
            + contribution (exp (- (1))) (nth 2 col NaN))
           / (1 + exp (- (1 / 2)) + exp (- (1)))).
Proof.
  intros Hlen.
  destruct (aggregate_entries default_scale [0; 1000; 2000] (grid_of_column col))
    as [s [Hagg [_ [_ Hent]]]]; [simpl; lia | simpl; lia |].
  exists s. split; [exact Hagg|]. rewrite Hent.
  unfold weighted_total, weight_total. cbn [grid_of_column shape0 item3].
  rewrite Hlen. cbn [big_sum].
  rewrite weight_at_0, weight_at_1000, weight_at_2000.
  f_equal. f_equal; lra.
Qed.

Lemma lone_value_bounds v :
  v = 10 / (1 + exp (- (1 / 2)) + exp (- (1))) -> 5.0647 <= v <= 5.0649.
Proof.
  intros Hv.
  pose proof exp_minus_half_bounds as H1. pose proof exp_minus_one_bounds as H2.
  set (d := 1 + exp (- (1 / 2)) + exp (- (1))) in *.
  assert (1.974409 <= d <= 1.974422) as Hd by (unfold d; lra).
  assert (v * d = 10) as Hvd by (rewrite Hv; field; lra).
  split; nra.
Qed.

(** C7, as the cell computes it.  For altitudes 0, 1000 and 2000 m the
    weights are 1, 0.6065 and 0.3679 to four decimals; a column holding 10
    at every level aggregates to exactly 10; a column holding 10 at the
    lowest level and missing values above aggregates to
    10 * 1 / (1 + 0.6065... + 0.3679...), which is 5.065 to three decimals. *)
Theorem worked_example :
  (exists w0 w1 w2,
     weighting [0; 1000; 2000] = [w0; w1; w2] /\
     Rabs (w0 - 1.0) <= 0.00005 /\
     Rabs (w1 - 0.6065) <= 0.00005 /\
     Rabs (w2 - 0.3679) <= 0.00005 /\
     exists s v,
       qpe_ground [0; 1000; 2000] (grid_of_column [Num 10; NaN; NaN]) = Ok s /\
       item2 s 0%nat 0%nat = Num v /\
       v = 10 * w0 / (w0 + w1 + w2) /\
       Rabs (v - 5.065) <= 0.0005) /\
  (exists s,
     qpe_ground [0; 1000; 2000] (grid_of_column [Num 10; Num 10; Num 10]) = Ok s /\
     item2 s 0%nat 0%nat = Num 10).
Proof.
  pose proof exp_minus_half_bounds as H1. pose proof exp_minus_one_bounds as H2.
  split.
  - exists 1, (exp (- (1 / 2))), (exp (- (1))).
    split; [exact sample_weighting|].
    split; [apply Rabs_le; lra|]. split; [apply Rabs_le; lra|].
    split; [apply Rabs_le; lra|].
    destruct (sample_surface [Num 10; NaN; NaN] eq_refl) as [s [Hagg Hent]].
    exists s. eexists. split; [exact Hagg|]. split; [exact Hent|].
    cbn [nth contribution].
    split; [f_equal; lra|].
    apply Rabs_le.
    pose proof (lone_value_bounds
                  ((1 * 10 + 0 + 0) / (1 + exp (- (1 / 2)) + exp (- (1))))) as Hb.
    assert (5.0647 <= (1 * 10 + 0 + 0) / (1 + exp (- (1 / 2)) + exp (- (1))) <= 5.0649)
      as Hv by (apply Hb; f_equal; lra).
    lra.
  - destruct (sample_surface [Num 10; Num 10; Num 10] eq_refl) as [s [Hagg Hent]].
    exists s. split; [exact Hagg|]. rewrite Hent. cbn [nth contribution].
    f_equal. field. lra.
Qed.

(** C7, counterexample.  The lone value 10 under two missing levels
    aggregates to less than 5.065: it is more than 0.025 away from the
    5.09 the example quotes. *)
Lemma quoted_value_counterexample :
  exists s v,
    qpe_ground [0; 1000; 2000] (grid_of_column [Num 10; NaN; NaN]) = Ok s /\
    item2 s 0%nat 0%nat = Num v /\
    v < 5.065 /\ 0.025 < Rabs (v - 5.09).
Proof.
  destruct (sample_surface [Num 10; NaN; NaN] eq_refl) as [s [Hagg Hent]].
  exists s. eexists. split; [exact Hagg|]. split; [exact Hent|].
  cbn [nth contribution].
  pose proof (lone_value_bounds
                ((1 * 10 + 0 + 0) / (1 + exp (- (1 / 2)) + exp (- (1))))) as Hb.
  assert (5.0647 <= (1 * 10 + 0 + 0) / (1 + exp (- (1 / 2)) + exp (- (1))) <= 5.0649)
    as Hv by (apply Hb; f_equal; lra).
  split; [lra|]. rewrite Rabs_left; lra.
Qed.


(** * The cell as the notebook runs it *)

(** ** Powers of two *)

Lemma pow2_pos n : 0 < 2 ^ n.
Proof. apply pow_lt. lra. Qed.

Lemma pow2_le n m : (n <= m)%nat -> 2 ^ n <= 2 ^ m.
Proof. intros H. apply Rle_pow; [lra | exact H]. Qed.

Lemma inv_pow2_pos n : 0 < / 2 ^ n.
Proof. apply Rinv_0_lt_compat, pow2_pos. Qed.

Lemma inv_pow2_le n m : (n <= m)%nat -> / 2 ^ m <= / 2 ^ n.
Proof.
  intros H. apply Rinv_le_contravar; [apply pow2_pos | apply pow2_le, H].
Qed.



Lemma inv_pow2_mult n m : / 2 ^ n * / 2 ^ m = / 2 ^ (n + m).
Proof.
  rewrite pow_add, Rinv_mult. reflexivity.
Qed.

Lemma moderate_small x : / 1024 <= Rabs x <= 1024 -> moderate x.
Proof.
  intros [Hlo Hhi]. right.
  assert (2 ^ 10 = 1024) as E by (simpl; lra).
  pose proof (pow2_le 10 400 ltac:(lia)) as H1.
  pose proof (inv_pow2_le 10 400 ltac:(lia)) as H2.
  rewrite E in H1, H2. lra.
Qed.

(** ** Sums *)



Lemma big_sum_abs_le n f g :
  (forall k, (k < n)%nat -> Rabs (f k) <= g k) ->
  Rabs (big_sum n f) <= big_sum n g.
Proof.
  induction n as [|n IH]; intros H; cbn [big_sum].
  - rewrite Rabs_R0. lra.
  - apply Rle_trans with (Rabs (big_sum n f) + Rabs (f n)); [apply Rabs_triang|].
    assert (Rabs (big_sum n f) <= big_sum n g) by (apply IH; intros; apply H; lia).
    assert (Rabs (f n) <= g n) by (apply H; lia). lra.
Qed.

Lemma weight_pos scale z k : 0 < weight scale z k.
Proof. apply exp_pos. Qed.

Lemma weight_total_pos scale z n : (1 <= n)%nat -> 0 < weight_total scale z n.
Proof.
  unfold weight_total. induction n as [|n IH]; intros Hn; [lia|].
  cbn [big_sum]. pose proof (weight_pos scale z n) as Hw.
  destruct n as [|n]; [simpl; lra|].
  assert (0 < big_sum (S n) (weight scale z)) by (apply IH; lia). lra.
Qed.



(** ** The cell on a masked grid *)

Lemma forallb_seq_ext (f g : nat -> bool) n :
  (forall k, (k < n)%nat -> f k = g k) ->
  forallb f (seq 0 n) = forallb g (seq 0 n).
Proof.
  intros H. apply eq_true_iff_eq. rewrite !forallb_forall.
  split; intros Hall k Hk; pose proof Hk as Hk'; apply in_seq in Hk'.
  - rewrite <- H by lia. apply Hall, Hk.
  - rewrite H by lia. apply Hall, Hk.
Qed.

(** With as many weights as levels no level is stretched. *)
Lemma level_index n k :
  (k < n)%nat -> (if Nat.eqb n 1 then 0%nat else k) = k.
Proof.
  intros Hk. destruct (Nat.eqb_spec n 1); lia.
Qed.

Lemma Ma_numerator_matched scale z (g p : Ma.array3) i j :
  length z = shape0 (Ma.data3 g) ->
  Ma.broadcast_mul (exp_decay scale z) g = Ok p ->
  shape1 (Ma.data3 p) = shape1 (Ma.data3 g) /\
  shape2 (Ma.data3 p) = shape2 (Ma.data3 g) /\
  Ma.nansum0 p i j = Ma.weighted_total scale z g i j /\
  Ma.column_masked p i j = Ma.column_masked g i j.
Proof.
  intros Hlen Hp. unfold Ma.broadcast_mul in Hp.
  rewrite broadcast_mul_matched in Hp by (rewrite exp_decay_length; exact Hlen).
  destruct g as [d [m|]]; cbn [Ma.data3 Ma.mask3] in *; inversion Hp; subst p; clear Hp;
    unfold Ma.nansum0, Ma.filled_column, Ma.weighted_total, Ma.column_masked, Ma.masked3;
    cbn [Ma.data3 Ma.mask3 shape0 shape1 shape2 item3].
  - split; [reflexivity|]. split; [reflexivity|]. split.
    + rewrite fold_seq_big_sum. apply big_sum_ext. intros k Hk.
      rewrite (level_index _ _ Hk). destruct (m k i j); [reflexivity|].
      rewrite nan_to_zero_mul, contribution_nan_to_zero, nth_exp_decay by lia.
      reflexivity.
    + apply forallb_seq_ext. intros k Hk. rewrite (level_index _ _ Hk). reflexivity.
  - split; [reflexivity|]. split; [reflexivity|]. split; [|reflexivity].
    rewrite fold_seq_big_sum. apply big_sum_ext. intros k Hk.
    rewrite nan_to_zero_mul, contribution_nan_to_zero, nth_exp_decay by lia.
    reflexivity.
Qed.

Lemma Ma_broadcast_mul_returns scale z (g : Ma.array3) :
  length z = shape0 (Ma.data3 g) ->
  exists p, Ma.broadcast_mul (exp_decay scale z) g = Ok p.
Proof.
  intros Hlen. unfold Ma.broadcast_mul.
  rewrite broadcast_mul_matched by (rewrite exp_decay_length; exact Hlen).
  destruct (Ma.mask3 g); eexists; reflexivity.
Qed.

(** The entries of the surface when the shapes match and there is at
    least one level. *)
Lemma Ma_aggregate_entries scale z (g : Ma.array3) :
  (1 <= shape0 (Ma.data3 g))%nat -> length z = shape0 (Ma.data3 g) ->
  exists s,
    Ma.aggregate scale z g = Ok s /\
    rows (Ma.data2 s) = shape1 (Ma.data3 g) /\
    cols (Ma.data2 s) = shape2 (Ma.data3 g) /\
    forall i j,
      Ma.entry2 s i j =
        if Ma.domain_safe_divide (Ma.weighted_total scale z g i j)
                                 (weight_total scale z (shape0 (Ma.data3 g)))
           || Ma.column_masked g i j
        then Ma.Masked
        else Ma.Shown (Num (Ma.weighted_total scale z g i j
                            / weight_total scale z (shape0 (Ma.data3 g)))).
Proof.
  intros Hnz Hlen.
  destruct (Ma_broadcast_mul_returns scale z g Hlen) as [p Hp].
  exists (Ma.surface (exp_decay scale z) p). split.
  { unfold Ma.aggregate. rewrite Hp. reflexivity. }
  destruct (Ma_numerator_matched scale z g p 0%nat 0%nat Hlen Hp) as [H1 [H2 _]].
  unfold Ma.surface. cbn [Ma.data2 rows cols].
  split; [exact H1|]. split; [exact H2|]. intros i j.
  destruct (Ma_numerator_matched scale z g p i j Hlen Hp) as [_ [_ [HN HM]]].
  unfold Ma.entry2, Ma.masked2. cbn [Ma.mask2 Ma.data2 item2].
  rewrite HN, HM, denominator_matched, Hlen.
  destruct (Ma.domain_safe_divide _ _ || Ma.column_masked g i j); [reflexivity|].
  rewrite true_divide_nonzero; [reflexivity|].
  pose proof (weight_total_pos scale z _ Hnz). lra.
Qed.

Lemma column_masked_iff (g : Ma.array3) i j :
  (1 <= shape0 (Ma.data3 g))%nat ->
  Ma.column_masked g i j = true <-> Ma.whole_column_masked g i j.
Proof.
  intros Hnz. unfold Ma.column_masked, Ma.whole_column_masked, Ma.masked3.
  destruct (Ma.mask3 g) as [m|].
  - rewrite forallb_forall. split; intros H k Hk.
    + apply H, in_seq. lia.
    + apply H. apply in_seq in Hk. lia.
  - split; [discriminate|]. intros H. apply (H 0%nat). lia.
Qed.

Lemma column_masked_false (g : Ma.array3) i j :
  (1 <= shape0 (Ma.data3 g))%nat ->
  ~ Ma.whole_column_masked g i j -> Ma.column_masked g i j = false.
Proof.
  intros Hnz H. destruct (Ma.column_masked g i j) eqn:E; [|reflexivity].
  exfalso. apply H, column_masked_iff; assumption.
Qed.

Lemma Ma_weighted_total_bound scale z (g : Ma.array3) i j B :
  0 <= B -> Ma.bounded_by B g ->
  Rabs (Ma.weighted_total scale z g i j)
  <= B * weight_total scale z (shape0 (Ma.data3 g)).
Proof.
  intros HB Hb. unfold Ma.weighted_total, weight_total.
  rewrite <- big_sum_scal. apply big_sum_abs_le. intros k _.
  pose proof (weight_pos scale z k) as Hw.
  destruct (Ma.masked3 g k i j) eqn:Em.
  - rewrite Rabs_R0. nra.
  - destruct (item3 (Ma.data3 g) k i j) as [|x] eqn:Ex; cbn [contribution].
    + rewrite Rabs_R0. nra.
    + rewrite Rabs_mult, (Rabs_pos_eq (weight scale z k)) by lra.
      pose proof (Hb k i j x Em Ex). nra.
Qed.

(** A dividend of at most 2^900 times a positive divisor is inside the
    domain of the safe division. *)
Lemma within_domain (N D : R) :
  0 < D -> Rabs N <= 2 ^ 900 * D -> Ma.domain_safe_divide N D = false.
Proof.
  intros HD HN. unfold Ma.domain_safe_divide, Ma.tiny.
  destruct (Rle_dec (Rabs D) (Rabs N * / 2 ^ 1022)) as [H|H]; [exfalso|reflexivity].
  rewrite (Rabs_pos_eq D) in H by lra.
  replace 1022%nat with (900 + 122)%nat in H by reflexivity.
  rewrite <- inv_pow2_mult in H.
  pose proof (pow2_pos 900) as HB. pose proof (inv_pow2_pos 900) as Ht.
  pose proof (inv_pow2_pos 122) as Hc.
  assert (/ 2 ^ 122 < 1) as Hc1.
  { rewrite <- Rinv_1. apply Rinv_lt_contravar; [pose proof (pow2_pos 122); lra|].
    apply Rlt_pow_R1; [lra | lia]. }
  assert (/ 2 ^ 900 * 2 ^ 900 = 1) as Hinv by (apply Rinv_l; lra).
  set (B := 2 ^ 900) in *. set (t := / B) in *. set (c := / 2 ^ 122) in *.
  assert (Rabs N * t <= D) as H1.
  { apply Rle_trans with (B * D * t); [apply Rmult_le_compat_r; lra|].
    replace (B * D * t) with (D * (t * B)) by ring. rewrite Hinv. lra. }
  assert (Rabs N * (t * c) <= D * c) as H2.
  { rewrite <- Rmult_assoc. apply Rmult_le_compat_r; lra. }
  nra.
Qed.

Lemma Ma_entry_masked scale z (g : Ma.array3) s i j :
  (1 <= shape0 (Ma.data3 g))%nat -> length z = shape0 (Ma.data3 g) ->
  Ma.aggregate scale z g = Ok s ->
  Ma.whole_column_masked g i j -> Ma.entry2 s i j = Ma.Masked.
Proof.
  intros Hnz Hlen Hs Hall.
  destruct (Ma_aggregate_entries scale z g Hnz Hlen) as [s' [Hs' [_ [_ Hent]]]].
  rewrite Hs in Hs'. inversion Hs'. subst s'. rewrite Hent.
  apply column_masked_iff in Hall; [|exact Hnz]. rewrite Hall, orb_true_r.
  reflexivity.
Qed.

Lemma Ma_entry_shown scale z (g : Ma.array3) s i j :
  (1 <= shape0 (Ma.data3 g))%nat -> length z = shape0 (Ma.data3 g) ->
  Ma.aggregate scale z g = Ok s ->
  ~ Ma.whole_column_masked g i j ->
  Rabs (Ma.weighted_total scale z g i j)
  <= 2 ^ 900 * weight_total scale z (shape0 (Ma.data3 g)) ->
  Ma.entry2 s i j =
    Ma.Shown (Num (Ma.weighted_total scale z g i j
                   / weight_total scale z (shape0 (Ma.data3 g)))).
Proof.
  intros Hnz Hlen Hs Hall Hb.
  destruct (Ma_aggregate_entries scale z g Hnz Hlen) as [s' [Hs' [_ [_ Hent]]]].
  rewrite Hs in Hs'. inversion Hs'. subst s'. rewrite Hent.
  rewrite (column_masked_false g i j Hnz Hall).
  rewrite within_domain; [reflexivity | apply weight_total_pos; exact Hnz | exact Hb].
Qed.

(** ** The surface on plain and masked arrays *)




Lemma sample_column_masked (col : list (bool * cell)) :
  (forall k, (k < length col)%nat -> fst (nth k col (false, NaN)) = true) ->
  Ma.whole_column_masked (Ma.grid_of_column col) 0%nat 0%nat.
Proof.
  intros H k Hk. unfold Ma.masked3, Ma.grid_of_column in *.
  cbn [Ma.mask3 Ma.data3 shape0] in *. apply H, Hk.
Qed.


Lemma Ma_weighted_total_all_missing scale z (g : Ma.array3) i j :
  (forall k, (k < shape0 (Ma.data3 g))%nat ->
     Ma.masked3 g k i j = false -> item3 (Ma.data3 g) k i j = NaN) ->
  Ma.weighted_total scale z g i j = 0.
Proof.
  intros H. unfold Ma.weighted_total.
  rewrite (big_sum_ext _ _ (fun _ => 0)); [apply big_sum_zero|].
  intros k Hk. destruct (Ma.masked3 g k i j) eqn:E; [reflexivity|].
  rewrite (H k Hk E). reflexivity.
Qed.

(** C2, as the cell behaves.  On a plain array, over a horizontal position
    where every level is NaN the surface entry is the number 0, not NaN
    (at least one level, altitudes between 0 and 1400 decay constants).
    On a masked array the entry over a position that is masked at every
    level is masked; it is 0 when some level is not masked and every such
    level is NaN. *)
Theorem all_missing_column (scale : R) (z : array1) :
  0 < scale -> altitudes_within 1400 scale z ->
  (forall (g : array3) (i j : nat),
     (1 <= shape0 g)%nat -> length z = shape0 g ->
     (i < shape1 g)%nat -> (j < shape2 g)%nat ->
     (forall k, (k < shape0 g)%nat -> item3 g k i j = NaN) ->
     exists s,
       aggregate scale z g = Ok s /\ item2 s i j = Num 0 /\ item2 s i j <> NaN) /\
  (forall (g : Ma.array3) (i j : nat),
     (1 <= shape0 (Ma.data3 g))%nat -> length z = shape0 (Ma.data3 g) ->
     (i < shape1 (Ma.data3 g))%nat -> (j < shape2 (Ma.data3 g))%nat ->
     exists s,
       Ma.aggregate scale z g = Ok s /\
       (Ma.whole_column_masked g i j ->
        Ma.entry2 s i j = Ma.Masked /\ Ma.entry2 s i j <> Ma.Shown (Num 0)) /\
       (~ Ma.whole_column_masked g i j ->
        (forall k, (k < shape0 (Ma.data3 g))%nat ->
           Ma.masked3 g k i j = false -> item3 (Ma.data3 g) k i j = NaN) ->
        Ma.entry2 s i j = Ma.Shown (Num 0))).
Proof.
  intros _ _. split.
  - intros g i j Hnz Hlen _ _ Hall.
    destruct (aggregate_entries scale z g Hnz Hlen) as [s [Hagg [_ [_ Hent]]]].
    exists s. split; [exact Hagg|].
    rewrite (Hent i j), weighted_total_all_missing by exact Hall.
    split; [f_equal; unfold Rdiv; lra | discriminate].
  - intros g i j Hnz Hlen _ _.
    destruct (Ma_aggregate_entries scale z g Hnz Hlen) as [s [Hagg _]].
    exists s. split; [exact Hagg|]. split.
    + intros Hall.
      rewrite (Ma_entry_masked scale z g s i j Hnz Hlen Hagg Hall).
      split; [reflexivity | discriminate].
    + intros Hsome Hnan.
      pose proof (Ma_weighted_total_all_missing scale z g i j Hnan) as H0.
      rewrite (Ma_entry_shown scale z g s i j Hnz Hlen Hagg Hsome).
      * rewrite H0. do 2 f_equal. unfold Rdiv. lra.
      * rewrite H0, Rabs_R0.
        pose proof (weight_total_pos scale z _ Hnz). pose proof (pow2_pos 900). nra.
Qed.

Lemma cappi_altitudes_within : altitudes_within 1400 1000 [500; 600; 700].
Proof.
  intros k Hk. simpl in Hk.
  destruct k as [|[|[|k]]]; simpl; try lra. lia.
Qed.

Lemma all_missing_column_witness :
  (forall (g : array3) (i j : nat),
     (1 <= shape0 g)%nat -> length [500; 600; 700] = shape0 g ->
     (i < shape1 g)%nat -> (j < shape2 g)%nat ->
     (forall k, (k < shape0 g)%nat -> item3 g k i j = NaN) ->
     exists s,
       aggregate 1000 [500; 600; 700] g = Ok s /\
       item2 s i j = Num 0 /\ item2 s i j <> NaN) /\
  (forall (g : Ma.array3) (i j : nat),
     (1 <= shape0 (Ma.data3 g))%nat -> length [500; 600; 700] = shape0 (Ma.data3 g) ->
     (i < shape1 (Ma.data3 g))%nat -> (j < shape2 (Ma.data3 g))%nat ->
     exists s,
       Ma.aggregate 1000 [500; 600; 700] g = Ok s /\
       (Ma.whole_column_masked g i j ->
        Ma.entry2 s i j = Ma.Masked /\ Ma.entry2 s i j <> Ma.Shown (Num 0)) /\
       (~ Ma.whole_column_masked g i j ->
        (forall k, (k < shape0 (Ma.data3 g))%nat ->
           Ma.masked3 g k i j = false -> item3 (Ma.data3 g) k i j = NaN) ->
        Ma.entry2 s i j = Ma.Shown (Num 0))).
Proof.
  apply (all_missing_column 1000 [500; 600; 700]); [lra | exact cappi_altitudes_within].
Defined.

(** C2, counterexample.  A column of three levels without an echo, masked
    by the gridder, is undefined at every level; its surface entry is
    masked, not 0. *)
Lemma all_masked_not_zero_counterexample :
  exists s,
    Ma.qpe_ground [500; 600; 700]
      (Ma.grid_of_column [(true, NaN); (true, NaN); (true, NaN)]) = Ok s /\
    Ma.entry2 s 0%nat 0%nat = Ma.Masked /\
    Ma.entry2 s 0%nat 0%nat <> Ma.Shown (Num 0).
Proof.
  destruct (Ma_aggregate_entries default_scale [500; 600; 700]
              (Ma.grid_of_column [(true, NaN); (true, NaN); (true, NaN)]))
    as [s [Hagg _]]; [simpl; lia | reflexivity |].
  exists s. split; [exact Hagg|].
  assert (Ma.entry2 s 0%nat 0%nat = Ma.Masked) as E.
  { apply (Ma_entry_masked default_scale [500; 600; 700]
             (Ma.grid_of_column [(true, NaN); (true, NaN); (true, NaN)]));
      [simpl; lia | reflexivity | exact Hagg |].
    apply sample_column_masked. intros [|[|[|k]]] Hk; try reflexivity.
    simpl in Hk. lia. }
  split; [exact E|]. rewrite E. discriminate.
Qed.

(** C9, as the cell behaves.  With at least one level and altitudes
    between 0 and 1400 decay constants, every surface entry of a plain
    array is a number: a NaN in a column never reaches the output.  On a
    masked array with entries up to 2^900 in magnitude a surface entry
    is masked exactly when its column is masked at every level, and is a
    number otherwise. *)
Theorem missing_values_propagation (scale : R) (z : array1) :
  0 < scale -> altitudes_within 1400 scale z ->
  (forall g : array3,
     (1 <= shape0 g)%nat -> length z = shape0 g -> bounded_grid g ->
     exists s,
       aggregate scale z g = Ok s /\
       forall i j, (i < rows s)%nat -> (j < cols s)%nat ->
         defined (item2 s i j) /\ is_nan (item2 s i j) = false) /\
  (forall g : Ma.array3,
     (1 <= shape0 (Ma.data3 g))%nat -> length z = shape0 (Ma.data3 g) ->
     Ma.bounded_by (2 ^ 900) g ->
     exists s,
       Ma.aggregate scale z g = Ok s /\
       forall i j, (i < rows (Ma.data2 s))%nat -> (j < cols (Ma.data2 s))%nat ->
         (Ma.entry2 s i j = Ma.Masked <-> Ma.whole_column_masked g i j) /\
         (~ Ma.whole_column_masked g i j ->
          exists v, Ma.entry2 s i j = Ma.Shown (Num v))).
Proof.
  intros _ _. split.
  - intros g Hnz Hlen _.
    destruct (aggregate_entries scale z g Hnz Hlen) as [s [Hagg [_ [_ Hent]]]].
    exists s. split; [exact Hagg|]. intros i j _ _. rewrite (Hent i j).
    split; [eexists; reflexivity | reflexivity].
  - intros g Hnz Hlen Hb.
    destruct (Ma_aggregate_entries scale z g Hnz Hlen) as [s [Hagg _]].
    exists s. split; [exact Hagg|]. intros i j _ _.
    assert (~ Ma.whole_column_masked g i j ->
            exists v, Ma.entry2 s i j = Ma.Shown (Num v)) as Hshown.
    { intros Hsome. eexists.
      apply (Ma_entry_shown scale z g); try assumption.
      apply Ma_weighted_total_bound; [left; apply pow2_pos | exact Hb]. }
    split; [|exact Hshown]. split.
    + intros E. destruct (column_masked_iff g i j Hnz) as [Hto _].
      destruct (Ma.column_masked g i j) eqn:Ec; [apply Hto; reflexivity|].
      assert (~ Ma.whole_column_masked g i j) as Hsome.
      { intros Hall. apply column_masked_iff in Hall; [|exact Hnz]. congruence. }
      destruct (Hshown Hsome) as [v Hv]. rewrite Hv in E. discriminate.
    + apply (Ma_entry_masked scale z g); assumption.
Qed.

Lemma missing_values_propagation_witness :
  (forall g : array3,
     (1 <= shape0 g)%nat -> length [500; 600; 700] = shape0 g -> bounded_grid g ->
     exists s,
       aggregate 1000 [500; 600; 700] g = Ok s /\
       forall i j, (i < rows s)%nat -> (j < cols s)%nat ->
         defined (item2 s i j) /\ is_nan (item2 s i j) = false) /\
  (forall g : Ma.array3,
     (1 <= shape0 (Ma.data3 g))%nat -> length [500; 600; 700] = shape0 (Ma.data3 g) ->
     Ma.bounded_by (2 ^ 900) g ->
     exists s,
       Ma.aggregate 1000 [500; 600; 700] g = Ok s /\
       forall i j, (i < rows (Ma.data2 s))%nat -> (j < cols (Ma.data2 s))%nat ->
         (Ma.entry2 s i j = Ma.Masked <-> Ma.whole_column_masked g i j) /\
         (~ Ma.whole_column_masked g i j ->
          exists v, Ma.entry2 s i j = Ma.Shown (Num v))).
Proof.
  apply (missing_values_propagation 1000 [500; 600; 700]);
    [lra | exact cappi_altitudes_within].
Defined.

(** C9, counterexample.  The missing value of a grid with a single level,
    masked by the gridder, reaches the output: the surface entry is
    masked, no value is shown. *)
Lemma masked_value_propagates_counterexample :
  exists s,
    Ma.qpe_ground [500] (Ma.grid_of_column [(true, Num 0)]) = Ok s /\
    Ma.entry2 s 0%nat 0%nat = Ma.Masked /\
    forall c, Ma.entry2 s 0%nat 0%nat <> Ma.Shown c.
Proof.
  destruct (Ma_aggregate_entries default_scale [500]
              (Ma.grid_of_column [(true, Num 0)]))
    as [s [Hagg _]]; [simpl; lia | reflexivity |].
  exists s. split; [exact Hagg|].
  assert (Ma.entry2 s 0%nat 0%nat = Ma.Masked) as E.
  { apply (Ma_entry_masked default_scale [500] (Ma.grid_of_column [(true, Num 0)]));
      [simpl; lia | reflexivity | exact Hagg |].
    apply sample_column_masked. intros [|k] Hk; [reflexivity|].
    simpl in Hk. lia. }
  split; [exact E|]. intros c. rewrite E. discriminate.
Qed.

(** ** The weights in binary64 *)




(** The exact model is the rounded one without rounding. *)
Lemma exact_weight scale a :
  Rounded.weight (fun x => x) exp scale a = decay scale a.
Proof. reflexivity. Qed.








(** ** A single level *)

Lemma exp_INR n : exp (INR n) = exp 1 ^ n.
Proof.
  induction n as [|n IH].
  - simpl. apply exp_0.
  - rewrite S_INR, exp_plus, IH. simpl. ring.
Qed.

Lemma exp_50_bound : exp 50 <= 2 ^ 100.
Proof.
  replace 50 with (INR 50) by (rewrite INR_IZR_INZ; reflexivity).
  rewrite exp_INR.
  apply Rle_trans with (4 ^ 50).
  - apply pow_incr. split; [left; apply exp_pos|].
    pose proof exp_le_3. lra.
  - replace 4 with (2 ^ 2) by (simpl; lra). rewrite <- pow_mult.
    apply pow2_le. lia.
Qed.

(** Within 100 decay constants a weight lies between 2^-100 and 1. *)
Lemma weight_range scale z k :
  0 < scale -> 0 <= nth k z 0 <= 100 * scale ->
  / 2 ^ 100 <= weight scale z k <= 1.
Proof.
  intros Hs [Hlo Hhi]. unfold weight.
  assert (- (50) <= -0.5 * nth k z 0 / scale <= 0) as [Hx0 Hx1].
  { assert (0 < / scale) as Hi by (apply Rinv_0_lt_compat; exact Hs).
    assert (nth k z 0 * / scale <= 100) as Hq.
    { apply Rmult_le_reg_r with scale; [exact Hs|].
      rewrite Rmult_assoc, Rinv_l by lra. lra. }
    assert (0 <= nth k z 0 * / scale) by (apply Rmult_le_pos; lra).
    unfold Rdiv. split; nra. }
  set (x := -0.5 * nth k z 0 / scale) in *. split.
  - apply Rle_trans with (exp (- (50))).
    + rewrite exp_Ropp. apply Rinv_le_contravar; [apply exp_pos | apply exp_50_bound].
    + destruct Hx0 as [Hlt|Heq]; [left; apply exp_increasing; exact Hlt|].
      rewrite Heq. lra.
  - rewrite <- exp_0. destruct Hx1 as [Hlt|Heq]; [left; apply exp_increasing; exact Hlt|].
    rewrite Heq. lra.
Qed.

Lemma four_ulps : 4 * / 2 ^ 53 = / 2 ^ 51.
Proof.
  replace 53%nat with (51 + 2)%nat by reflexivity.
  rewrite pow_add, Rinv_mult. simpl (2 ^ 2).
  pose proof (inv_pow2_pos 51). lra.
Qed.


Lemma half_ulp_small : / 2 ^ 53 <= / 2.
Proof.
  pose proof (inv_pow2_le 1 53 ltac:(lia)) as H. simpl (2 ^ 1) in H. lra.
Qed.

Lemma double_pow2 n : 2 * 2 ^ n = 2 ^ (n + 1).
Proof. rewrite pow_add. simpl (2 ^ 1). lra. Qed.

Lemma half_inv_pow2 n : / 2 * / 2 ^ n = / 2 ^ (n + 1).
Proof. rewrite <- inv_pow2_mult. simpl (2 ^ 1). rewrite Rmult_1_r. ring. Qed.

(** A rounded number is off by at most 2^-53 of the exact one, and so at
    most twice and at least half as large. *)
Lemma rounded_near (rnd : R -> R) (t : R) (n m : nat) :
  Rounded.to_nearest rnd -> (n + 1 <= 1022)%nat -> (m + 1 <= 1023)%nat ->
  / 2 ^ n <= Rabs t <= 2 ^ m ->
  Rabs (rnd t - t) <= / 2 ^ 53 * Rabs t /\
  / 2 ^ (n + 1) <= Rabs (rnd t) <= 2 ^ (m + 1).
Proof.
  intros [_ Hrnd] Hn Hm [Hlo Hhi].
  assert (Rabs (rnd t - t) <= / 2 ^ 53 * Rabs t) as E.
  { apply Hrnd. split.
    - apply Rle_trans with (/ 2 ^ n); [apply inv_pow2_le; lia | exact Hlo].
    - apply Rle_trans with (2 ^ m); [exact Hhi | apply pow2_le; lia]. }
  split; [exact E|].
  pose proof half_ulp_small as Hu. pose proof (inv_pow2_pos 53) as Hu0.
  pose proof (inv_pow2_pos n) as Hn0.
  set (u := / 2 ^ 53) in *. set (a := Rabs t) in *.
  assert (Rabs (rnd t) <= a + u * a) as H1.
  { replace (rnd t) with (t + (rnd t - t)) by ring.
    apply Rle_trans with (Rabs t + Rabs (rnd t - t)); [apply Rabs_triang|].
    fold a. lra. }
  assert (a - u * a <= Rabs (rnd t)) as H2.
  { assert (a <= Rabs (rnd t) + Rabs (rnd t - t)); [|lra].
    unfold a. replace t with (rnd t + - (rnd t - t)) at 1 by ring.
    apply Rle_trans with (Rabs (rnd t) + Rabs (- (rnd t - t))); [apply Rabs_triang|].
    rewrite Rabs_Ropp. lra. }
  rewrite <- half_inv_pow2, <- double_pow2. split; nra.
Qed.

(** The product and the quotient are each off by at most 2^-53 of
    themselves, and nothing else is rounded. *)
Lemma rounded_surface_near (rnd : R -> R) (w x : R) :
  Rounded.to_nearest rnd -> / 2 ^ 100 <= w <= 1 ->
  x = 0 \/ / 2 ^ 900 <= Rabs x <= 2 ^ 900 ->
  Rabs (Rounded.surface rnd w x - x) <= / 2 ^ 51 * Rabs x.
Proof.
  intros Hrnd [Hwlo Hwhi] Hx. unfold Rounded.surface.
  destruct Hx as [->|[Hxlo Hxhi]].
  { destruct Hrnd as [H0 _].
    rewrite Rmult_0_r, H0. unfold Rdiv. rewrite Rmult_0_l, H0.
    rewrite Rminus_0_r, Rabs_R0. lra. }
  pose proof (inv_pow2_pos 100) as Hw0. assert (0 < w) as Hw by lra.
  pose proof (inv_pow2_pos 900) as Hx0.
  pose proof (inv_pow2_pos 53) as Hu. pose proof half_ulp_small as Hu2.
  pose proof four_ulps as H4.
  assert (Rabs (w * x) = w * Rabs x) as Ep
      by (rewrite Rabs_mult, (Rabs_pos_eq w); lra).
  assert (/ 2 ^ 1000 <= Rabs (w * x) <= 2 ^ 900) as Hp.
  { rewrite Ep. split.
    - replace 1000%nat with (100 + 900)%nat by reflexivity.
      rewrite <- inv_pow2_mult. apply Rmult_le_compat; lra.
    - apply Rle_trans with (1 * 2 ^ 900); [apply Rmult_le_compat; lra | lra]. }
  destruct (rounded_near rnd (w * x) 1000 900 Hrnd ltac:(lia) ltac:(lia) Hp)
    as [E1 _].
  rewrite Ep in E1.
  set (u := / 2 ^ 53) in *. set (a := Rabs x) in *. set (p := rnd (w * x)) in *.
  assert (Rabs (p / w - x) <= u * a) as E2.
  { replace (p / w - x) with ((p - w * x) * / w) by (field; lra).
    rewrite Rabs_mult, (Rabs_pos_eq (/ w)) by (left; apply Rinv_0_lt_compat; lra).
    apply Rmult_le_reg_r with w; [lra|].
    rewrite Rmult_assoc, Rinv_l by lra. nra. }
  set (q := p / w) in *.
  assert (Rabs q <= a + u * a) as Hq1.
  { replace q with (x + (q - x)) by ring.
    apply Rle_trans with (Rabs x + Rabs (q - x)); [apply Rabs_triang|]. fold a. lra. }
  assert (a - u * a <= Rabs q) as Hq2.
  { assert (a <= Rabs q + Rabs (q - x)); [|lra].
    unfold a. replace x with (q + - (q - x)) at 1 by ring.
    apply Rle_trans with (Rabs q + Rabs (- (q - x))); [apply Rabs_triang|].
    rewrite Rabs_Ropp. lra. }
  assert (/ 2 ^ 901 <= Rabs q <= 2 ^ 901) as Hq.
  { replace 901%nat with (900 + 1)%nat by reflexivity.
    rewrite <- half_inv_pow2, <- double_pow2. split; nra. }
  destruct (rounded_near rnd q 901 901 Hrnd ltac:(lia) ltac:(lia) Hq) as [E3 _].
  fold u in E3.
  replace (rnd q - x) with ((rnd q - q) + (q - x)) by ring.
  apply Rle_trans with (Rabs (rnd q - q) + Rabs (q - x)); [apply Rabs_triang|].
  assert (0 <= a) by apply Rabs_pos.
  rewrite <- H4. nra.
Qed.

Lemma moderate_wide x : moderate x -> x = 0 \/ / 2 ^ 900 <= Rabs x <= 2 ^ 900.
Proof.
  intros [->|[Hlo Hhi]]; [left; reflexivity | right].
  pose proof (inv_pow2_le 400 900 ltac:(lia)). pose proof (pow2_le 400 900 ltac:(lia)).
  lra.
Qed.

Lemma moderate_bounded (g : array3) mask :
  moderate_grid g -> Ma.bounded_by (2 ^ 900) (Ma.mk3 g mask).
Proof.
  intros Hmod k i j x _ Hx. cbn [Ma.data3] in Hx.
  pose proof (pow2_le 400 900 ltac:(lia)). pose proof (pow2_pos 400).
  destruct (Hmod k i j x Hx) as [->|[_ Hhi]]; [rewrite Rabs_R0|]; lra.
Qed.

(** C5, as the cell computes it.  A grid with a single level and no
    missing value, with its altitude between 0 and 100 decay constants and
    values that are zero or between 2^-400 and 2^400 in magnitude, is
    returned up to rounding: every entry of the surface is within 2^-51 of
    the entry of the level, relative to it, on a plain array and on a
    masked array without a masked entry.  The bound is that of the two
    operations binary64 rounds here, the product by the weight and the
    division by it: the weight lies between 2^-100 and 1, and for any
    such weight the bound holds whatever the rounding does within its
    guarantee. *)
Theorem single_level_near_identity (scale : R) (z : array1) (g : array3) :
  0 < scale -> shape0 g = 1%nat -> length z = 1%nat ->
  altitudes_within 100 scale z -> moderate_grid g ->
  (forall i j, (i < shape1 g)%nat -> (j < shape2 g)%nat -> defined (item3 g 0 i j)) ->
  (exists s,
     aggregate scale z g = Ok s /\
     rows s = shape1 g /\ cols s = shape2 g /\
     forall i j, (i < shape1 g)%nat -> (j < shape2 g)%nat ->
       exists v x,
         item2 s i j = Num v /\ item3 g 0 i j = Num x /\
         Rabs (v - x) <= / 2 ^ 51 * Rabs x) /\
  (forall mask,
     (forall k i j, Ma.masked3 (Ma.mk3 g mask) k i j = false) ->
     exists s,
       Ma.aggregate scale z (Ma.mk3 g mask) = Ok s /\
       forall i j, (i < shape1 g)%nat -> (j < shape2 g)%nat ->
         exists v x,
           Ma.entry2 s i j = Ma.Shown (Num v) /\ item3 g 0 i j = Num x /\
           Rabs (v - x) <= / 2 ^ 51 * Rabs x) /\
  / 2 ^ 100 <= weight scale z 0 <= 1 /\
  (forall rnd w i j x,
     Rounded.to_nearest rnd -> / 2 ^ 100 <= w <= 1 -> item3 g 0 i j = Num x ->
     Rabs (Rounded.surface rnd w x - x) <= / 2 ^ 51 * Rabs x).
Proof.
  intros Hs Hnz Hlen Hreach Hmod Hdef.
  assert (length z = shape0 g) as Hlen' by congruence.
  assert (1 <= shape0 g)%nat as Hnz' by lia.
  assert (forall x, 0 <= / 2 ^ 51 * Rabs x) as Hnonneg.
  { intros x. apply Rmult_le_pos; [left; apply inv_pow2_pos | apply Rabs_pos]. }
  split; [|split; [|split]].
  - destruct (aggregate_entries scale z g Hnz' Hlen') as [s [Hagg [Hr [Hc Hent]]]].
    exists s. repeat split; try assumption.
    intros i j Hi Hj. destruct (Hdef i j Hi Hj) as [x Hx].
    exists x, x. split; [|split; [exact Hx|]].
    + rewrite (Hent i j). unfold weighted_total, weight_total.
      rewrite Hnz. simpl. rewrite Hx. simpl. f_equal.
      pose proof (weight_pos scale z 0). field. lra.
    + replace (x - x) with 0 by ring. rewrite Rabs_R0. apply Hnonneg.
  - intros mask Hmask.
    destruct (Ma_aggregate_entries scale z (Ma.mk3 g mask) Hnz' Hlen')
      as [s [Hagg _]].
    exists s. split; [exact Hagg|].
    intros i j Hi Hj. destruct (Hdef i j Hi Hj) as [x Hx].
    exists x, x. split; [|split; [exact Hx|]].
    + rewrite (Ma_entry_shown scale z (Ma.mk3 g mask) s i j Hnz' Hlen' Hagg).
      * unfold Ma.weighted_total, weight_total. cbn [Ma.data3].
        rewrite Hnz. cbn [big_sum]. rewrite Hmask, Hx. cbn [contribution].
        do 2 f_equal. pose proof (weight_pos scale z 0). field. lra.
      * intros Hall. specialize (Hall 0%nat Hnz'). rewrite Hmask in Hall.
        discriminate.
      * apply Ma_weighted_total_bound; [left; apply pow2_pos|].
        apply moderate_bounded, Hmod.
    + replace (x - x) with 0 by ring. rewrite Rabs_R0. apply Hnonneg.
  - apply weight_range; [exact Hs|]. apply Hreach. lia.
  - intros rnd w i j x Hrnd Hw Hx.
    apply rounded_surface_near; [exact Hrnd | exact Hw |].
    apply moderate_wide, (Hmod 0%nat i j x Hx).
Qed.

Lemma single_level_near_identity_witness :
  (exists s,
     aggregate 1000 [500] (grid_of_column [Num 7]) = Ok s /\
     rows s = 1%nat /\ cols s = 1%nat /\
     forall i j, (i < 1)%nat -> (j < 1)%nat ->
       exists v x,
         item2 s i j = Num v /\ item3 (grid_of_column [Num 7]) 0 i j = Num x /\
         Rabs (v - x) <= / 2 ^ 51 * Rabs x) /\
  (forall mask,
     (forall k i j, Ma.masked3 (Ma.mk3 (grid_of_column [Num 7]) mask) k i j = false) ->
     exists s,
       Ma.aggregate 1000 [500] (Ma.mk3 (grid_of_column [Num 7]) mask) = Ok s /\
       forall i j, (i < 1)%nat -> (j < 1)%nat ->
         exists v x,
           Ma.entry2 s i j = Ma.Shown (Num v) /\
           item3 (grid_of_column [Num 7]) 0 i j = Num x /\
           Rabs (v - x) <= / 2 ^ 51 * Rabs x) /\
  / 2 ^ 100 <= weight 1000 [500] 0 <= 1 /\
  (forall rnd w i j x,
     Rounded.to_nearest rnd -> / 2 ^ 100 <= w <= 1 ->
     item3 (grid_of_column [Num 7]) 0 i j = Num x ->
     Rabs (Rounded.surface rnd w x - x) <= / 2 ^ 51 * Rabs x).
Proof.
  apply (single_level_near_identity 1000 [500] (grid_of_column [Num 7]));
    [lra | reflexivity | reflexivity | | |].
  - intros k Hk. simpl in Hk. destruct k as [|k]; [simpl; lra | lia].
  - intros k i j x H. apply moderate_small. cbn [grid_of_column item3] in H.
    destruct k as [|[|k]]; cbn [nth] in H; try discriminate.
    inversion H. subst x. rewrite Rabs_pos_eq; lra.
  - intros i j _ _. exists 7. reflexivity.
Defined.

(** C5, counterexample.  One level at 500 m holding 0.1: the weight is
    exp(-0.25) and (w * 0.1) / w is the binary64 number after 0.1.  One
    level at 2000000 m holding 5: the weight underflows to 0 and the
    surface is 0 / 0. *)
Lemma single_level_rounding_counterexample :
  F64.qpe_ground 500 F64.tenth = Some F64.tenth_next /\
  PrimFloat.eqb F64.tenth_next F64.tenth = false /\
  F64.qpe_ground 2000000 5 = Some nan.
Proof.
  vm_compute. repeat split.
Qed.

(** ** Homogeneity *)












(** ** The cell in the kernel *)

Lemma run_cell_outcome (k : Kernel.state) :
  match Ma.qpe_ground (Kernel.cappi_z (Kernel.names k))
                      (Kernel.cappi_rain (Kernel.names k)) with
  | Raise _ =>
      snd (Kernel.run_cell k) = Some Kernel.ValueError /\
      Kernel.var_qpe_ground (Kernel.names (fst (Kernel.run_cell k)))
        = Kernel.var_qpe_ground (Kernel.names k) /\
      Kernel.figure (fst (Kernel.run_cell k)) = Kernel.figure k
  | Ok s =>
      Kernel.var_qpe_ground (Kernel.names (fst (Kernel.run_cell k)))
        = Some (Kernel.A2 s) /\
      match Kernel.first_level (Kernel.point_longitude (Kernel.names k)),
            Kernel.first_level (Kernel.point_latitude (Kernel.names k)) with
      | Some X, Some Y =>
          snd (Kernel.run_cell k) = None /\
          Kernel.figure (fst (Kernel.run_cell k))
            = Kernel.figure k
              ++ [Kernel.pcolormesh X Y s 15; Kernel.colorbar Kernel.label]
      | _, _ =>
          snd (Kernel.run_cell k) = Some Kernel.IndexError /\
          Kernel.figure (fst (Kernel.run_cell k)) = Kernel.figure k
      end
  end.
Proof.
  unfold Ma.qpe_ground, Ma.aggregate, Kernel.run_cell.
  cbn [Kernel.bind_weighting Kernel.bind_qpe_ground Kernel.cappi_rain
       Kernel.cappi_z Kernel.point_longitude Kernel.point_latitude].
  destruct (Ma.broadcast_mul (exp_decay default_scale (Kernel.cappi_z (Kernel.names k)))
              (Kernel.cappi_rain (Kernel.names k))) as [p|e].
  - destruct (Kernel.first_level (Kernel.point_longitude (Kernel.names k)));
      destruct (Kernel.first_level (Kernel.point_latitude (Kernel.names k)));
      repeat split.
  - repeat split.
Qed.

(** What a run appends to the current figure. *)
Lemma run_cell_drawn (k k' : Kernel.state) :
  Kernel.same_inputs k k' ->
  exists drawn,
    Kernel.figure (fst (Kernel.run_cell k)) = Kernel.figure k ++ drawn /\
    Kernel.figure (fst (Kernel.run_cell k')) = Kernel.figure k' ++ drawn.
Proof.
  intros [Hz [Hd [Hlon Hlat]]]. unfold Kernel.run_cell.
  cbn [Kernel.bind_weighting Kernel.bind_qpe_ground Kernel.cappi_rain
       Kernel.cappi_z Kernel.point_longitude Kernel.point_latitude].
  rewrite <- Hz, <- Hd, <- Hlon, <- Hlat.
  destruct (Ma.broadcast_mul (exp_decay default_scale (Kernel.cappi_z (Kernel.names k)))
              (Kernel.cappi_rain (Kernel.names k))) as [p|e].
  - destruct (Kernel.first_level (Kernel.point_longitude (Kernel.names k)));
      destruct (Kernel.first_level (Kernel.point_latitude (Kernel.names k)));
      cbn [fst Kernel.figure];
      try (eexists; split; reflexivity);
      exists []; rewrite !app_nil_r; split; reflexivity.
  - exists []. cbn [fst Kernel.figure]. rewrite !app_nil_r. split; reflexivity.
Qed.

(** C6, as the cell behaves.  A run is determined by the arrays it reads:
    two runs from kernels that agree on the altitudes, the gridded field
    and the two coordinate arrays stop the same way, bind the same weights
    and the same surface and draw the same.  No run writes into these
    arrays.  Every run has effects on the kernel: it rebinds [weighting];
    unless the product fails it rebinds [qpe_ground] to the surface; and
    when nothing fails it draws that surface on the current figure, with
    [vmax = 15], and then a colorbar. *)
Theorem run_cell_effects (k k' : Kernel.state) :
  Kernel.same_inputs k k' ->
  (snd (Kernel.run_cell k) = snd (Kernel.run_cell k') /\
   Kernel.var_weighting (Kernel.names (fst (Kernel.run_cell k)))
     = Kernel.var_weighting (Kernel.names (fst (Kernel.run_cell k'))) /\
   (snd (Kernel.run_cell k) <> Some Kernel.ValueError ->
    Kernel.var_qpe_ground (Kernel.names (fst (Kernel.run_cell k)))
      = Kernel.var_qpe_ground (Kernel.names (fst (Kernel.run_cell k')))) /\
   exists drawn,
     Kernel.figure (fst (Kernel.run_cell k)) = Kernel.figure k ++ drawn /\
     Kernel.figure (fst (Kernel.run_cell k')) = Kernel.figure k' ++ drawn) /\
  Kernel.same_inputs (fst (Kernel.run_cell k)) k /\
  Kernel.var_weighting (Kernel.names (fst (Kernel.run_cell k)))
    = Some (weighting (Kernel.cappi_z (Kernel.names k))) /\
  match Ma.qpe_ground (Kernel.cappi_z (Kernel.names k))
                      (Kernel.cappi_rain (Kernel.names k)) with
  | Raise _ =>
      snd (Kernel.run_cell k) = Some Kernel.ValueError /\
      Kernel.var_qpe_ground (Kernel.names (fst (Kernel.run_cell k)))
        = Kernel.var_qpe_ground (Kernel.names k) /\
      Kernel.figure (fst (Kernel.run_cell k)) = Kernel.figure k
  | Ok s =>
      Kernel.var_qpe_ground (Kernel.names (fst (Kernel.run_cell k)))
        = Some (Kernel.A2 s) /\
      match Kernel.first_level (Kernel.point_longitude (Kernel.names k)),
            Kernel.first_level (Kernel.point_latitude (Kernel.names k)) with
      | Some X, Some Y =>
          snd (Kernel.run_cell k) = None /\
          Kernel.figure (fst (Kernel.run_cell k))
            = Kernel.figure k
              ++ [Kernel.pcolormesh X Y s 15; Kernel.colorbar Kernel.label]
      | _, _ =>
          snd (Kernel.run_cell k) = Some Kernel.IndexError /\
          Kernel.figure (fst (Kernel.run_cell k)) = Kernel.figure k
      end
  end.
Proof.
  intros Hsame. split; [|split; [|split; [|apply run_cell_outcome]]].
  - split; [|split; [|split; [|apply run_cell_drawn; exact Hsame]]];
      destruct Hsame as [Hz [Hd [Hlon Hlat]]]; unfold Kernel.run_cell;
      cbn [Kernel.bind_weighting Kernel.bind_qpe_ground Kernel.cappi_rain
           Kernel.cappi_z Kernel.point_longitude Kernel.point_latitude];
      rewrite <- Hz, <- Hd, <- Hlon, <- Hlat;
      destruct (Ma.broadcast_mul
                  (exp_decay default_scale (Kernel.cappi_z (Kernel.names k)))
                  (Kernel.cappi_rain (Kernel.names k))) as [p|e];
      try destruct (Kernel.first_level (Kernel.point_longitude (Kernel.names k)));
      try destruct (Kernel.first_level (Kernel.point_latitude (Kernel.names k)));
      try reflexivity; intros H; try reflexivity; contradiction.
  - unfold Kernel.same_inputs, Kernel.run_cell.
    cbn [Kernel.bind_weighting Kernel.bind_qpe_ground Kernel.cappi_rain
         Kernel.cappi_z Kernel.point_longitude Kernel.point_latitude].
    destruct (Ma.broadcast_mul
                (exp_decay default_scale (Kernel.cappi_z (Kernel.names k)))
                (Kernel.cappi_rain (Kernel.names k))) as [p|e];
      try destruct (Kernel.first_level (Kernel.point_longitude (Kernel.names k)));
      try destruct (Kernel.first_level (Kernel.point_latitude (Kernel.names k)));
      repeat split.
  - unfold Kernel.run_cell.
    cbn [Kernel.bind_weighting Kernel.bind_qpe_ground Kernel.cappi_rain
         Kernel.cappi_z Kernel.point_longitude Kernel.point_latitude].
    destruct (Ma.broadcast_mul
                (exp_decay default_scale (Kernel.cappi_z (Kernel.names k)))
                (Kernel.cappi_rain (Kernel.names k))) as [p|e];
      try destruct (Kernel.first_level (Kernel.point_longitude (Kernel.names k)));
      try destruct (Kernel.first_level (Kernel.point_latitude (Kernel.names k)));
      reflexivity.
Qed.

Lemma fresh_used_same_inputs : Kernel.same_inputs Kernel.fresh_kernel Kernel.used_kernel.
Proof. repeat split. Qed.

Lemma run_cell_effects_witness :
  (snd (Kernel.run_cell Kernel.fresh_kernel) = snd (Kernel.run_cell Kernel.used_kernel) /\
   Kernel.var_weighting (Kernel.names (fst (Kernel.run_cell Kernel.fresh_kernel)))
     = Kernel.var_weighting (Kernel.names (fst (Kernel.run_cell Kernel.used_kernel))) /\
   (snd (Kernel.run_cell Kernel.fresh_kernel) <> Some Kernel.ValueError ->
    Kernel.var_qpe_ground (Kernel.names (fst (Kernel.run_cell Kernel.fresh_kernel)))
      = Kernel.var_qpe_ground (Kernel.names (fst (Kernel.run_cell Kernel.used_kernel)))) /\
   exists drawn,
     Kernel.figure (fst (Kernel.run_cell Kernel.fresh_kernel))
       = Kernel.figure Kernel.fresh_kernel ++ drawn /\
     Kernel.figure (fst (Kernel.run_cell Kernel.used_kernel))
       = Kernel.figure Kernel.used_kernel ++ drawn) /\
  Kernel.same_inputs (fst (Kernel.run_cell Kernel.fresh_kernel)) Kernel.fresh_kernel /\
  Kernel.var_weighting (Kernel.names (fst (Kernel.run_cell Kernel.fresh_kernel)))
    = Some (weighting (Kernel.cappi_z (Kernel.names Kernel.fresh_kernel))) /\
  match Ma.qpe_ground (Kernel.cappi_z (Kernel.names Kernel.fresh_kernel))
                      (Kernel.cappi_rain (Kernel.names Kernel.fresh_kernel)) with
  | Raise _ =>
      snd (Kernel.run_cell Kernel.fresh_kernel) = Some Kernel.ValueError /\
      Kernel.var_qpe_ground (Kernel.names (fst (Kernel.run_cell Kernel.fresh_kernel)))
        = Kernel.var_qpe_ground (Kernel.names Kernel.fresh_kernel) /\
      Kernel.figure (fst (Kernel.run_cell Kernel.fresh_kernel))
        = Kernel.figure Kernel.fresh_kernel
  | Ok s =>
      Kernel.var_qpe_ground (Kernel.names (fst (Kernel.run_cell Kernel.fresh_kernel)))
        = Some (Kernel.A2 s) /\
      match Kernel.first_level (Kernel.point_longitude (Kernel.names Kernel.fresh_kernel)),
            Kernel.first_level (Kernel.point_latitude (Kernel.names Kernel.fresh_kernel)) with
      | Some X, Some Y =>
          snd (Kernel.run_cell Kernel.fresh_kernel) = None /\
          Kernel.figure (fst (Kernel.run_cell Kernel.fresh_kernel))
            = Kernel.figure Kernel.fresh_kernel
              ++ [Kernel.pcolormesh X Y s 15; Kernel.colorbar Kernel.label]
      | _, _ =>
          snd (Kernel.run_cell Kernel.fresh_kernel) = Some Kernel.IndexError /\
          Kernel.figure (fst (Kernel.run_cell Kernel.fresh_kernel))
            = Kernel.figure Kernel.fresh_kernel
      end
  end.
Proof.
  apply (run_cell_effects Kernel.fresh_kernel Kernel.used_kernel).
  exact fresh_used_same_inputs.
Defined.

Lemma fresh_kernel_product :
  exists p,
    Ma.broadcast_mul (exp_decay default_scale [500; 600])
      (Ma.grid_of_column [(false, Num 3); (true, Num 0)]) = Ok p.
Proof.
  apply Ma_broadcast_mul_returns. reflexivity.
Qed.

(** C6, counterexample.  A run from a fresh kernel, where neither name is
    bound and nothing is drawn, leaves another kernel: [weighting] and
    [qpe_ground] are bound and the current figure holds two calls. *)
Lemma run_cell_side_effects_counterexample :
  snd (Kernel.run_cell Kernel.fresh_kernel) = None /\
  fst (Kernel.run_cell Kernel.fresh_kernel) <> Kernel.fresh_kernel /\
  Kernel.var_weighting (Kernel.names Kernel.fresh_kernel) = None /\
  Kernel.var_weighting (Kernel.names (fst (Kernel.run_cell Kernel.fresh_kernel)))
    = Some (weighting [500; 600]) /\
  Kernel.var_qpe_ground (Kernel.names Kernel.fresh_kernel) = None /\
  Kernel.var_qpe_ground (Kernel.names (fst (Kernel.run_cell Kernel.fresh_kernel))) <> None /\
  Kernel.figure Kernel.fresh_kernel = [] /\
  length (Kernel.figure (fst (Kernel.run_cell Kernel.fresh_kernel))) = 2%nat.
Proof.
  destruct fresh_kernel_product as [p Hp].
  assert (Kernel.run_cell Kernel.fresh_kernel
          = (Kernel.mkstate
               (Kernel.mkns [500; 600]
                  (Ma.grid_of_column [(false, Num 3); (true, Num 0)])
                  (Kernel.coordinates 8) (Kernel.coordinates 46)
                  (Some (weighting [500; 600]))
                  (Some (Kernel.A2 (Ma.surface (weighting [500; 600]) p))))
               [Kernel.pcolormesh
                  (Np.mk2 1 1 (fun i j => item3 (Kernel.coordinates 8) 0 i j))
                  (Np.mk2 1 1 (fun i j => item3 (Kernel.coordinates 46) 0 i j))
                  (Ma.surface (weighting [500; 600]) p) 15;
                Kernel.colorbar Kernel.label],
             None)) as E.
  { unfold Kernel.run_cell, Kernel.fresh_kernel.
    cbn [Kernel.names Kernel.figure Kernel.cappi_z Kernel.cappi_rain
         Kernel.bind_weighting Kernel.bind_qpe_ground Kernel.point_longitude
         Kernel.point_latitude Kernel.var_weighting Kernel.var_qpe_ground].
    rewrite Hp. reflexivity. }
  rewrite E. cbn [fst snd Kernel.names Kernel.figure Kernel.var_weighting
                  Kernel.var_qpe_ground length].
  split; [reflexivity|]. split.
  { intros H. apply (f_equal Kernel.figure) in H. discriminate H. }
  repeat split; discriminate.
Qed.

(** ** Dependence on the decay constant, in binary64 *)




(** ** The sign of the surface *)



(** * The rest of the notebooks *)

(** ** The CAPPI grid shape *)

Lemma axis_points_value lo hi res :
  res <> 0%Z -> (Z.abs (hi - lo) < 2 ^ 52)%Z -> (Z.abs res < 2 ^ 52)%Z ->
  Cappi.axis_points lo hi res = Cappi.Returns (Z.quot (hi - lo) res + 1)%Z.
Proof.
  intros H Ha Hr. unfold Cappi.axis_points.
  destruct (Z.eqb_spec res 0) as [E|_]; [contradiction|].
  destruct (Z.ltb_spec (Z.abs (hi - lo)) (2 ^ 52)) as [_|N]; [|lia].
  destruct (Z.ltb_spec (Z.abs res) (2 ^ 52)) as [_|N]; [|lia].
  reflexivity.
Qed.

Lemma axis_points_returns lo hi res n :
  Cappi.axis_points lo hi res = Cappi.Returns n ->
  res <> 0%Z /\ n = (Z.quot (hi - lo) res + 1)%Z.
Proof.
  unfold Cappi.axis_points.
  destruct (Z.eqb_spec res 0) as [E|E]; [discriminate|].
  destruct ((Z.abs (hi - lo) <? 2 ^ 52)%Z && (Z.abs res <? 2 ^ 52)%Z);
    [|discriminate].
  intros H. inversion H. split; [exact E | reflexivity].
Qed.

(** X1.  For limits in order and a positive resolution, extent and
    resolution below 2^52, the axis has at least one point, and points
    spaced by the resolution from the lower limit fit the limits exactly:
    the last one is at or below the upper limit and one more would pass
    it. *)
Theorem axis_points_fit (lo hi res : Z) :
  (0 < res < 2 ^ 52)%Z -> (lo <= hi)%Z -> (hi - lo < 2 ^ 52)%Z ->
  exists n,
    Cappi.axis_points lo hi res = Cappi.Returns n /\
    (1 <= n)%Z /\
    (lo + (n - 1) * res <= hi)%Z /\ (hi < lo + n * res)%Z.
Proof.
  intros [Hres Hres'] Hle Hext. eexists. split; [apply axis_points_value; lia|].
  rewrite Z.quot_div_nonneg by lia.
  pose proof (Z.div_pos (hi - lo) res) as Hq.
  pose proof (Z.mul_div_le (hi - lo) res Hres) as Hlo.
  pose proof (Z.mul_succ_div_gt (hi - lo) res Hres) as Hhi.
  nia.
Qed.

Lemma axis_points_fit_witness :
  exists n,
    Cappi.axis_points 500 8000 100 = Cappi.Returns n /\
    (1 <= n)%Z /\
    (500 + (n - 1) * 100 <= 8000)%Z /\ (8000 < 500 + n * 100)%Z.
Proof.
  apply (axis_points_fit 500 8000 100); lia.
Defined.

(** X2.  Under the same conditions the last of these points is the upper
    limit itself exactly when the resolution divides the extent;
    otherwise n points spread from limit to limit are spaced wider than
    the resolution asked for. *)
Theorem axis_points_exact_iff (lo hi res n : Z) :
  (0 < res < 2 ^ 52)%Z -> (lo <= hi)%Z -> (hi - lo < 2 ^ 52)%Z ->
  Cappi.axis_points lo hi res = Cappi.Returns n ->
  ((lo + (n - 1) * res = hi)%Z <-> (res | hi - lo)%Z).
Proof.
  intros [Hres Hres'] Hle Hext Hn. rewrite axis_points_value in Hn by lia.
  inversion Hn as [Hn']. clear Hn.
  rewrite Z.quot_div_nonneg by lia.
  replace ((hi - lo) / res + 1 - 1)%Z with ((hi - lo) / res)%Z by lia.
  split.
  - intros H. exists ((hi - lo) / res)%Z. lia.
  - intros [q Hq]. rewrite Hq, Z.div_mul by lia. lia.
Qed.

Lemma axis_points_exact_iff_witness :
  ((-100000 + (401 - 1) * 500 = 100000)%Z <-> (500 | 100000 - -100000)%Z).
Proof.
  apply (axis_points_exact_iff (-100000) 100000 500 401);
    [lia | lia | lia | reflexivity].
Defined.

(** X3.  The count raises ZeroDivisionError exactly for a zero resolution.
    [int] truncates toward zero, so whenever the count is returned for a
    positive resolution, limits given in the wrong order still yield one
    point as long as they are less than one step apart, and no point or a
    negative count beyond that. *)
Theorem axis_points_truncation (lo hi res : Z) :
  (Cappi.axis_points lo hi res = Cappi.ZeroDivisionError <-> res = 0%Z) /\
  (forall n, (0 < res)%Z -> Cappi.axis_points lo hi res = Cappi.Returns n ->
     ((1 <= n)%Z <-> (- res < hi - lo)%Z)).
Proof.
  split.
  - unfold Cappi.axis_points. destruct (Z.eqb_spec res 0) as [E|E].
    + split; [intros _; exact E | reflexivity].
    + destruct ((Z.abs (hi - lo) <? 2 ^ 52)%Z && (Z.abs res <? 2 ^ 52)%Z);
        split; intros H; try discriminate; contradiction.
  - intros n Hres Hn. apply axis_points_returns in Hn. destruct Hn as [_ ->].
    destruct (Z.le_gt_cases 0 (hi - lo)) as [Hd|Hd].
    + rewrite Z.quot_div_nonneg by lia.
      pose proof (Z.div_pos (hi - lo) res). lia.
    + replace (hi - lo)%Z with (- (lo - hi))%Z by lia.
      rewrite Z.quot_opp_l by lia. rewrite Z.quot_div_nonneg by lia.
      split; intros H.
      * assert ((lo - hi) / res <= 0)%Z as Hq by lia.
        pose proof (Z.div_pos (lo - hi) res) as Hp.
        assert ((lo - hi) / res = 0)%Z as Hz by lia.
        apply Z.div_small_iff in Hz; lia.
      * rewrite Z.div_small by lia. lia.
Qed.

(** The shapes the two notebooks ask the gridder for. *)
Example answer_grid_shape :
  Cappi.grid_shape 500 8000 (-100000) 100000 (-100000) 100000 500 100
  = Cappi.Returns (76, 401, 401)%Z.
Proof. reflexivity. Qed.

Example doppler_grid_shape :
  Cappi.grid_shape 500 8000 (-100000) 100000 (-100000) 100000 500 500
  = Cappi.Returns (16, 401, 401)%Z.
Proof. reflexivity. Qed.

(** ** Merging the sweeps of a volume *)

Lemma last_cons_default {A : Type} (l : list A) (x d : A) :
  last (x :: l) d = last l x.
Proof.
  revert x d. induction l as [|y l IH]; intros x d; [reflexivity|].
  change (last (x :: y :: l) d) with (last (y :: l) d).
  rewrite (IH y d), (IH y x). reflexivity.
Qed.

Section MergeLoop.

Context {file radar : Type}.
Variable read_cfradial : file -> radar.
Variable join_radar : radar -> radar -> radar.

(** The loop from iteration i >= 1 on, with [radar_merged] bound. *)
Lemma run_loop_from (i : nat) (files : list file) (r m : radar) :
  (1 <= i)%nat ->
  Volume.run_loop read_cfradial join_radar
    (Volume.mkkernel (Some r) (Some m)) (combine (seq i (length files)) files)
  = (Volume.mkkernel (Some (last (map read_cfradial files) r))
       (Some (fold_left join_radar (map read_cfradial files) m)), None).
Proof.
  revert i r m. induction files as [|f files IH]; intros i r m Hi.
  - reflexivity.
  - cbn [length seq combine Volume.run_loop]. unfold Volume.loop_body.
    destruct (Nat.eqb_spec i 0) as [E|_]; [lia|].
    cbn [Volume.var_radar_merged]. rewrite IH by lia.
    cbn [map fold_left]. rewrite last_cons_default. reflexivity.
Qed.

Lemma merge_files_cons (k : Volume.kernel radar) (f : file) (rest : list file) :
  Volume.merge_files read_cfradial join_radar k (f :: rest)
  = (Volume.mkkernel
       (Some (last (map read_cfradial rest) (read_cfradial f)))
       (Some (fold_left join_radar (map read_cfradial rest) (read_cfradial f))),
     None).
Proof.
  unfold Volume.merge_files, Volume.enumerate.
  cbn [length seq combine Volume.run_loop]. unfold Volume.loop_body.
  cbn [Nat.eqb]. apply run_loop_from. lia.
Qed.

End MergeLoop.

(** X4.  Over a non-empty list of files the loop never reads an unbound
    name, whatever the kernel held before.  It leaves [radar] bound to the
    radar of the last file and [radar_merged] to the first radar joined
    with every later one in order; nothing of the earlier bindings
    survives.  Over an empty list it binds nothing and leaves the kernel
    as it was. *)
Theorem merge_files_result {file radar : Type}
  (read_cfradial : file -> radar) (join_radar : radar -> radar -> radar)
  (k : Volume.kernel radar) (f : file) (rest : list file) :
  Volume.merge_files read_cfradial join_radar k (f :: rest)
  = (Volume.mkkernel
       (Some (last (map read_cfradial rest) (read_cfradial f)))
       (Some (fold_left join_radar (map read_cfradial rest) (read_cfradial f))),
     None)
  /\ Volume.merge_files read_cfradial join_radar k [] = (k, None).
Proof.
  split; [apply merge_files_cons | reflexivity].
Qed.

Lemma fold_left_app_sweeps {radar sweep : Type}
  (join_radar : radar -> radar -> radar) (sweeps : radar -> list sweep) :
  (forall a b, sweeps (join_radar a b) = sweeps a ++ sweeps b) ->
  forall (l : list radar) (m : radar),
    sweeps (fold_left join_radar l m) = sweeps m ++ flat_map sweeps l.
Proof.
  intros Hjoin l. induction l as [|r l IH]; intros m; cbn [fold_left flat_map].
  - symmetry. apply app_nil_r.
  - rewrite IH, Hjoin, <- app_assoc. reflexivity.
Qed.

(** X5.  When joining two radars appends the sweeps of the second to those
    of the first, the merged volume holds the sweeps of every file once,
    in the order of the sorted file list. *)
Theorem merge_files_sweeps {file radar sweep : Type}
  (read_cfradial : file -> radar) (join_radar : radar -> radar -> radar)
  (sweeps : radar -> list sweep)
  (k : Volume.kernel radar) (files_radar : list file) :
  (forall a b, sweeps (join_radar a b) = sweeps a ++ sweeps b) ->
  files_radar <> [] ->
  exists last_read merged,
    Volume.merge_files read_cfradial join_radar k files_radar
      = (Volume.mkkernel (Some last_read) (Some merged), None) /\
    sweeps merged = flat_map (fun f => sweeps (read_cfradial f)) files_radar.
Proof.
  intros Hjoin Hne. destruct files_radar as [|f rest]; [contradiction|].
  do 2 eexists. split; [apply merge_files_cons|].
  rewrite (fold_left_app_sweeps join_radar sweeps Hjoin).
  cbn [flat_map]. f_equal. clear. induction rest as [|g rest IH]; [reflexivity|].
  cbn [map flat_map]. rewrite IH. reflexivity.
Qed.

(** Three files of one, two and one sweeps, a radar being its list of
    sweeps. *)
Lemma merge_files_sweeps_witness :
  exists last_read merged,
    Volume.merge_files (fun f : list nat => f) (@app nat)
      (Volume.mkkernel None None) [[1%nat]; [2%nat; 3%nat]; [4%nat]]
      = (Volume.mkkernel (Some last_read) (Some merged), None) /\
    (fun r : list nat => r) merged
      = flat_map (fun f => (fun r : list nat => r) ((fun f : list nat => f) f))
          [[1%nat]; [2%nat; 3%nat]; [4%nat]].
Proof.
  apply (merge_files_sweeps (fun f : list nat => f) (@app nat)
           (fun r : list nat => r) (Volume.mkkernel None None)
           [[1%nat]; [2%nat; 3%nat]; [4%nat]]);
    [reflexivity | discriminate].
Defined.

(** ** Reductions that skip NaN *)

Lemma values_In x col : In x (Reduce.values col) <-> In (Num x) col.
Proof.
  induction col as [|[|r] col IH]; cbn [Reduce.values In].
  - tauto.
  - rewrite IH. split; [tauto | intros [H|H]; [discriminate | exact H]].
  - rewrite IH. split; intros [H|H]; try tauto.
    + left. congruence.
    + left. congruence.
Qed.

Lemma values_nil_iff col :
  Reduce.values col = [] <-> (forall c, In c col -> c = NaN).
Proof.
  induction col as [|[|r] col IH]; cbn [Reduce.values In].
  - split; [intros _ c [] | reflexivity].
  - rewrite IH. split.
    + intros H c [<-|Hc]; [reflexivity | apply H, Hc].
    + intros H c Hc. apply H. right. exact Hc.
  - split; [discriminate|]. intros H. specialize (H (Num r) (or_introl eq_refl)).
    discriminate.
Qed.

Lemma nansum_values col :
  fold_right Rplus 0 (map nan_to_zero col) = fold_right Rplus 0 (Reduce.values col).
Proof.
  induction col as [|[|r] col IH]; cbn [map fold_right Reduce.values nan_to_zero].
  - reflexivity.
  - rewrite IH. lra.
  - rewrite IH. reflexivity.
Qed.

Lemma nanmean_of_values col :
  Reduce.values col <> [] ->
  Reduce.nanmean col
  = Num (fold_right Rplus 0 (Reduce.values col) / INR (length (Reduce.values col))).
Proof.
  intros Hne. unfold Reduce.nanmean. rewrite nansum_values.
  apply true_divide_nonzero. apply not_0_INR.
  destruct (Reduce.values col); [contradiction | discriminate].
Qed.

Lemma nanmean_no_values col : Reduce.values col = [] -> Reduce.nanmean col = NaN.
Proof.
  intros H. unfold Reduce.nanmean. rewrite H. apply true_divide_zero.
Qed.

Lemma nanmean_nan_values col :
  Reduce.nanmean col = NaN <-> Reduce.values col = [].
Proof.
  split.
  - intros H. destruct (Reduce.values col) as [|x l] eqn:E; [reflexivity|].
    rewrite nanmean_of_values in H by (rewrite E; discriminate). discriminate.
  - apply nanmean_no_values.
Qed.

(** X7.  The mean of a column is NaN exactly when every entry is NaN, an
    empty column included. *)
Theorem nanmean_nan_iff (col : list cell) :
  Reduce.nanmean col = NaN <-> (forall c, In c col -> c = NaN).
Proof.
  rewrite <- values_nil_iff. apply nanmean_nan_values.
Qed.

Lemma fold_min_le_init l x : fold_left Rmin l x <= x.
Proof.
  revert x. induction l as [|a l IH]; intros x; cbn [fold_left]; [lra|].
  apply Rle_trans with (Rmin x a); [apply IH | apply Rmin_l].
Qed.

Lemma fold_min_le l x y : In y (x :: l) -> fold_left Rmin l x <= y.
Proof.
  revert x. induction l as [|a l IH]; intros x [<-|Hy].
  - simpl. lra.
  - destruct Hy.
  - apply fold_min_le_init.
  - cbn [fold_left]. destruct Hy as [<-|Hy].
    + apply Rle_trans with (Rmin x a); [apply fold_min_le_init | apply Rmin_r].
    + apply IH. right. exact Hy.
Qed.

Lemma fold_min_In l x : In (fold_left Rmin l x) (x :: l).
Proof.
  revert x. induction l as [|a l IH]; intros x; cbn [fold_left].
  - left. reflexivity.
  - destruct (IH (Rmin x a)) as [H|H].
    + rewrite <- H. unfold Rmin. destruct (Rle_dec x a); [left | right; left]; reflexivity.
    + right. right. exact H.
Qed.

Lemma fold_max_ge_init l x : x <= fold_left Rmax l x.
Proof.
  revert x. induction l as [|a l IH]; intros x; cbn [fold_left]; [lra|].
  apply Rle_trans with (Rmax x a); [apply Rmax_l | apply IH].
Qed.

Lemma fold_max_ge l x y : In y (x :: l) -> y <= fold_left Rmax l x.
Proof.
  revert x. induction l as [|a l IH]; intros x [<-|Hy].
  - simpl. lra.
  - destruct Hy.
  - apply fold_max_ge_init.
  - cbn [fold_left]. destruct Hy as [<-|Hy].
    + apply Rle_trans with (Rmax x a); [apply Rmax_r | apply fold_max_ge_init].
    + apply IH. right. exact Hy.
Qed.

Lemma fold_max_In l x : In (fold_left Rmax l x) (x :: l).
Proof.
  revert x. induction l as [|a l IH]; intros x; cbn [fold_left].
  - left. reflexivity.
  - destruct (IH (Rmax x a)) as [H|H].
    + rewrite <- H. unfold Rmax. destruct (Rle_dec x a); [right; left | left]; reflexivity.
    + right. right. exact H.
Qed.

Lemma insert_In x y l : In y (Reduce.insert x l) <-> y = x \/ In y l.
Proof.
  induction l as [|a l IH]; cbn [Reduce.insert In].
  - split; [intros [H|[]]; left; congruence | intros [H|[]]; left; congruence].
  - destruct (Rle_dec x a); cbn [In]; [|rewrite IH];
      split; intros H; repeat destruct H as [H|H]; auto.
Qed.

Lemma insert_length x l : length (Reduce.insert x l) = S (length l).
Proof.
  induction l as [|a l IH]; cbn [Reduce.insert]; [reflexivity|].
  destruct (Rle_dec x a); cbn [length]; [reflexivity | rewrite IH; reflexivity].
Qed.

Lemma sort_In y l : In y (Reduce.sort l) <-> In y l.
Proof.
  induction l as [|a l IH]; cbn [Reduce.sort In]; [tauto|].
  rewrite insert_In, IH. split; intros [H|H]; auto.
Qed.

Lemma sort_length l : length (Reduce.sort l) = length l.
Proof.
  induction l as [|a l IH]; cbn [Reduce.sort length]; [reflexivity|].
  rewrite insert_length, IH. reflexivity.
Qed.

(** The insertion sort sorts. *)
Lemma insert_sorted x l :
  StronglySorted Rle l -> StronglySorted Rle (Reduce.insert x l).
Proof.
  induction 1 as [|a l Hs IH Ha]; cbn [Reduce.insert].
  - constructor; constructor.
  - destruct (Rle_dec x a) as [Hxa|Hxa].
    + constructor; [constructor; assumption|].
      constructor; [exact Hxa|].
      apply Forall_forall. intros y Hy.
      rewrite Forall_forall in Ha. specialize (Ha y Hy). lra.
    + constructor; [exact IH|].
      apply Forall_forall. intros y Hy. apply insert_In in Hy.
      destruct Hy as [->|Hy]; [lra|].
      rewrite Forall_forall in Ha. apply Ha, Hy.
Qed.

Lemma sort_sorted l : StronglySorted Rle (Reduce.sort l).
Proof.
  induction l as [|a l IH]; cbn [Reduce.sort]; [constructor|].
  apply insert_sorted, IH.
Qed.

Lemma median_between (l : list R) (lo hi : R) :
  l <> [] -> (forall x, In x l -> lo <= x <= hi) ->
  exists med,
    (let s := Reduce.sort l in
     let n := length s in
     if Nat.eqb n 0 then NaN
     else if Nat.odd n then Num (nth (n / 2) s 0)
     else Num ((nth (n / 2 - 1) s 0 + nth (n / 2) s 0) / 2)) = Num med /\
    lo <= med <= hi.
Proof.
  intros Hne Hb. cbv zeta.
  assert (forall k, (k < length (Reduce.sort l))%nat ->
                    lo <= nth k (Reduce.sort l) 0 <= hi) as Hnth.
  { intros k Hk. apply Hb, sort_In, nth_In, Hk. }
  assert (0 < length (Reduce.sort l))%nat as Hn.
  { rewrite sort_length. destruct l; [contradiction | simpl; lia]. }
  set (n := length (Reduce.sort l)) in *.
  destruct (Nat.eqb_spec n 0) as [E|_]; [lia|].
  assert (n / 2 < n)%nat as Hhalf by (apply Nat.div_lt; lia).
  destruct (Nat.odd n).
  - eexists. split; [reflexivity|]. apply Hnth, Hhalf.
  - eexists. split; [reflexivity|].
    pose proof (Hnth (n / 2 - 1)%nat ltac:(lia)) as H1.
    pose proof (Hnth (n / 2)%nat Hhalf) as H2. lra.
Qed.

(** The four reductions of a column with an entry that is not NaN. *)
Lemma reductions_ordered (col : list cell) :
  Reduce.values col <> [] ->
  exists med mean mn mx,
    Reduce.nanmedian col = Num med /\ Reduce.nanmean col = Num mean /\
    Reduce.nanmin col = Ok (Num mn) /\ Reduce.nanmax col = Ok (Num mx) /\
    In mn (Reduce.values col) /\ In mx (Reduce.values col) /\
    (forall x, In x (Reduce.values col) -> mn <= x <= mx) /\
    mn <= med <= mx.
Proof.
  intros Hne.
  assert (exists c rest, col = c :: rest) as [c [rest Hcol]].
  { destruct col as [|c rest]; [contradiction | eauto]. }
  destruct (Reduce.values col) as [|x l] eqn:E; [contradiction|].
  set (mn := fold_left Rmin l x). set (mx := fold_left Rmax l x).
  assert (forall y, In y (x :: l) -> mn <= y <= mx) as Hb.
  { intros y Hy. split; [apply fold_min_le | apply fold_max_ge]; exact Hy. }
  destruct (median_between (x :: l) mn mx Hne Hb) as [med [Hmed Hmb]].
  exists med. eexists. exists mn, mx.
  unfold Reduce.nanmedian, Reduce.nanmin, Reduce.nanmax. rewrite E.
  split; [exact Hmed|].
  split; [apply nanmean_of_values; rewrite E; exact Hne|].
  rewrite Hcol.
  split; [reflexivity|]. split; [reflexivity|].
  split; [apply fold_min_In|]. split; [apply fold_max_In|].
  split; assumption.
Qed.

(** ** Statistics of a quasi vertical profile *)

Lemma where_above_In thr rhohv vals c :
  In c (Qvp.where_above thr rhohv vals) <->
  exists r v, In (r, v) (combine rhohv vals) /\
              c = if Qvp.above thr r then v else NaN.
Proof.
  unfold Qvp.where_above. rewrite in_map_iff. split.
  - intros [[r v] [Hc Hin]]. exists r, v. split; [exact Hin | symmetry; exact Hc].
  - intros [r [v [Hin Hc]]]. exists (r, v). split; [symmetry; exact Hc | exact Hin].
Qed.

Lemma above_true thr r : Qvp.above thr r = true <-> exists x, r = Num x /\ thr < x.
Proof.
  destruct r as [|x]; cbn [Qvp.above].
  - split; [discriminate | intros [x [H _]]; discriminate].
  - destruct (Rlt_dec thr x) as [H|H].
    + split; [intros _; exists x; split; [reflexivity | exact H] | reflexivity].
    + split; [discriminate | intros [y [Hy Hlt]]; inversion Hy; subst; contradiction].
Qed.

Lemma kept_value thr rhohv vals x :
  In x (Reduce.values (Qvp.where_above thr rhohv vals)) <->
  exists r, In (Num r, Num x) (combine rhohv vals) /\ thr < r.
Proof.
  rewrite values_In, where_above_In. split.
  - intros [r [v [Hin Hc]]].
    destruct (Qvp.above thr r) eqn:E; [|discriminate].
    apply above_true in E. destruct E as [y [-> Hy]]. subst v.
    exists y. split; assumption.
  - intros [r [Hin Hr]]. exists (Num r), (Num x). split; [exact Hin|].
    assert (Qvp.above thr (Num r) = true) as -> by (apply above_true; eauto).
    reflexivity.
Qed.

(** X9.  When at least one azimuth has RHOHV above the threshold and a
    value that is not NaN, the four statistics are numbers, in the order
    median, mean, min, max; the median lies between the minimum and the
    maximum; minimum and maximum are values of azimuths that pass the
    RHOHV test. *)
Theorem azimuth_stats_ordered (thr : R) (rhohv vals : list cell) :
  (exists r v, In (Num r, Num v) (combine rhohv vals) /\ thr < r) ->
  exists med mean mn mx,
    Qvp.azimuth_stats thr rhohv vals = Ok [Num med; Num mean; Num mn; Num mx] /\
    mn <= med <= mx /\
    (exists r, In (Num r, Num mn) (combine rhohv vals) /\ thr < r) /\
    (exists r, In (Num r, Num mx) (combine rhohv vals) /\ thr < r).
Proof.
  intros [r [v [Hin Hr]]].
  assert (Reduce.values (Qvp.where_above thr rhohv vals) <> []) as Hne.
  { intros E. assert (In v (Reduce.values (Qvp.where_above thr rhohv vals))) as Hv
        by (apply kept_value; eauto).
    rewrite E in Hv. destruct Hv. }
  destruct (reductions_ordered _ Hne)
    as [med [mean [mn [mx [H1 [H2 [H3 [H4 [Hmn [Hmx [_ Hmed]]]]]]]]]]].
  exists med, mean, mn, mx. unfold Qvp.azimuth_stats. cbv zeta.
  rewrite H1, H2, H3, H4.
  split; [reflexivity|]. split; [exact Hmed|].
  split; apply kept_value; assumption.
Qed.

Lemma azimuth_stats_ordered_witness :
  exists med mean mn mx,
    Qvp.azimuth_stats 0.8 [Num 0.9; Num 0.5; Num 0.95] [Num 20; Num 60; Num 30]
      = Ok [Num med; Num mean; Num mn; Num mx] /\
    mn <= med <= mx /\
    (exists r, In (Num r, Num mn)
                 (combine [Num 0.9; Num 0.5; Num 0.95] [Num 20; Num 60; Num 30])
               /\ 0.8 < r) /\
    (exists r, In (Num r, Num mx)
                 (combine [Num 0.9; Num 0.5; Num 0.95] [Num 20; Num 60; Num 30])
               /\ 0.8 < r).
Proof.
  apply (azimuth_stats_ordered 0.8 [Num 0.9; Num 0.5; Num 0.95]
           [Num 20; Num 60; Num 30]).
  exists 0.9, 20. split; [left; reflexivity | lra].
Defined.

Lemma where_above_nil thr rhohv vals :
  Qvp.where_above thr rhohv vals = [] <-> combine rhohv vals = [].
Proof.
  unfold Qvp.where_above. destruct (combine rhohv vals); cbn [map].
  - split; reflexivity.
  - split; discriminate.
Qed.

(** X10.  With no azimuth at all the statistics raise ValueError, in
    [min].  With at least one azimuth the four statistics are all NaN
    exactly when no azimuth has both RHOHV above the threshold and a value
    that is not NaN; an azimuth whose RHOHV is NaN never counts. *)
Theorem azimuth_stats_nan_iff (thr : R) (rhohv vals : list cell) :
  (combine rhohv vals = [] ->
   Qvp.azimuth_stats thr rhohv vals = Raise ValueError) /\
  (combine rhohv vals <> [] ->
   (Qvp.azimuth_stats thr rhohv vals = Ok [NaN; NaN; NaN; NaN] <->
    forall r v, In (r, v) (combine rhohv vals) ->
      Qvp.above thr r = false \/ v = NaN)).
Proof.
  split.
  - intros E. apply (proj2 (where_above_nil thr rhohv vals)) in E.
    unfold Qvp.azimuth_stats, Reduce.nanmin. cbv zeta. rewrite E. reflexivity.
  - intros Hne.
    assert (exists c rest, Qvp.where_above thr rhohv vals = c :: rest) as [c [rest Hk]].
    { destruct (Qvp.where_above thr rhohv vals) as [|c rest] eqn:E; [|eauto].
      apply where_above_nil in E. contradiction. }
    split.
    + intros H. unfold Qvp.azimuth_stats in H. cbv zeta in H.
      destruct (Reduce.nanmin (Qvp.where_above thr rhohv vals)) as [mn|e];
        [|discriminate].
      destruct (Reduce.nanmax (Qvp.where_above thr rhohv vals)) as [mx|e];
        [|discriminate].
      injection H as _ Hmean _ _.
      apply nanmean_nan_values in Hmean.
      pose proof (proj1 (values_nil_iff _) Hmean) as Hall. intros r v Hin.
      destruct (Qvp.above thr r) eqn:E; [right | left; reflexivity].
      apply Hall, where_above_In. exists r, v. split; [exact Hin|].
      rewrite E. reflexivity.
    + intros H.
      assert (Reduce.values (Qvp.where_above thr rhohv vals) = []) as Hv.
      { apply values_nil_iff. intros c' Hc. apply where_above_In in Hc.
        destruct Hc as [r [v [Hin ->]]].
        destruct (H r v Hin) as [E|E]; [rewrite E; reflexivity|].
        subst v. destruct (Qvp.above thr r); reflexivity. }
      unfold Qvp.azimuth_stats, Reduce.nanmedian, Reduce.nanmin, Reduce.nanmax.
      cbv zeta. rewrite nanmean_no_values by exact Hv. rewrite Hv, Hk. reflexivity.
Qed.

(** X11.  Applied to RHOHV itself, the median, the minimum and the maximum
    lie strictly above the threshold whenever they are numbers. *)
Theorem rhohv_stats_above (thr : R) (rhohv : list cell) (med mean mn mx : cell) (x : R) :
  Qvp.azimuth_stats thr rhohv rhohv = Ok [med; mean; mn; mx] ->
  med = Num x \/ mn = Num x \/ mx = Num x ->
  thr < x.
Proof.
  intros Hstats Hx.
  assert (forall y, In y (Reduce.values (Qvp.where_above thr rhohv rhohv)) -> thr < y)
    as Hall.
  { intros y Hy. apply kept_value in Hy. destruct Hy as [r [Hin Hr]].
    assert (forall (l : list cell) a b, In (a, b) (combine l l) -> a = b) as Hdiag.
    { induction l as [|c l IH]; intros a b H; [destruct H|].
      destruct H as [H|H]; [congruence | apply IH, H]. }
    apply Hdiag in Hin. inversion Hin; subst. exact Hr. }
  unfold Qvp.azimuth_stats in Hstats. cbv zeta in Hstats.
  destruct (Reduce.values (Qvp.where_above thr rhohv rhohv)) as [|y l] eqn:E.
  - exfalso. unfold Reduce.nanmedian, Reduce.nanmin, Reduce.nanmax in Hstats.
    rewrite E in Hstats.
    destruct (Qvp.where_above thr rhohv rhohv); [discriminate|].
    cbn in Hstats. inversion Hstats; subst.
    destruct Hx as [H|[H|H]]; discriminate.
  - assert (Reduce.values (Qvp.where_above thr rhohv rhohv) <> []) as Hne
        by (rewrite E; discriminate).
    destruct (reductions_ordered _ Hne)
      as [m1 [m2 [m3 [m4 [H1 [H2 [H3 [H4 [Hmn [_ [_ Hmed]]]]]]]]]]].
    rewrite E in Hmn. specialize (Hall m3 Hmn).
    rewrite H1, H2, H3, H4 in Hstats. inversion Hstats; subst.
    destruct Hx as [H|[H|H]]; inversion H; subst; lra.
Qed.

Lemma rhohv_stats_above_witness :
  Qvp.azimuth_stats 0.8 [Num 0.9; NaN; Num 0.3] [Num 0.9; NaN; Num 0.3]
  = Ok [Reduce.nanmedian [Num 0.9; NaN; NaN]; Reduce.nanmean [Num 0.9; NaN; NaN];
        Num 0.9; Num 0.9]
  /\ 0.8 < 0.9.
Proof.
  assert (Qvp.azimuth_stats 0.8 [Num 0.9; NaN; Num 0.3] [Num 0.9; NaN; Num 0.3]
          = Ok [Reduce.nanmedian [Num 0.9; NaN; NaN];
                Reduce.nanmean [Num 0.9; NaN; NaN]; Num 0.9; Num 0.9]) as H.
  { unfold Qvp.azimuth_stats, Qvp.where_above. cbv zeta.
    cbn [combine map fst snd Qvp.above].
    destruct (Rlt_dec 0.8 0.9) as [_|H]; [|exfalso; lra].
    destruct (Rlt_dec 0.8 0.3) as [H|_]; [exfalso; lra|].
    reflexivity. }
  split; [exact H|].
  apply (rhohv_stats_above 0.8 [Num 0.9; NaN; Num 0.3]
           (Reduce.nanmedian [Num 0.9; NaN; NaN]) (Reduce.nanmean [Num 0.9; NaN; NaN])
           (Num 0.9) (Num 0.9) 0.9 H).
  right. left. reflexivity.
Defined.

(** ** The wind profile from the VAD retrievals *)

Lemma remainder_bounds x m : 0 < m -> 0 <= Vad.remainder x m < m.
Proof.
  intros Hm. unfold Vad.remainder.
  pose proof (Zfloor_bound (x / m)) as [Hlo Hhi].
  assert (x = m * (x / m)) as Hx by (field; lra).
  set (q := x / m) in *. set (k := IZR (Zfloor q)) in *.
  split; nra.
Qed.

Lemma orientation_value u v :
  Vad.orientation (Num u) (Num v)
  = Num (Vad.remainder (Vad.rad2deg (Vad.arctan2 (- u) (- v))) 360).
Proof. reflexivity. Qed.

(** X12.  Speed and direction are NaN exactly when one of the two mean wind
    components is; otherwise the speed is not negative and the direction
    lies between 0 and 360.  (The remainder of an exact angle is below
    360; binary64 rounds that of a tiny negative angle to 360 itself.) *)
Theorem speed_orientation_range (u_avg v_avg : cell) :
  (Vad.orientation u_avg v_avg = NaN <-> u_avg = NaN \/ v_avg = NaN) /\
  (Vad.speed u_avg v_avg = NaN <-> u_avg = NaN \/ v_avg = NaN) /\
  (forall d, Vad.orientation u_avg v_avg = Num d -> 0 <= d <= 360) /\
  (forall s, Vad.speed u_avg v_avg = Num s -> 0 <= s).
Proof.
  destruct u_avg as [|u]; destruct v_avg as [|v];
    cbn [Vad.orientation Vad.speed Vad.negate];
    repeat split; intros; try discriminate; auto;
    try (match goal with H : _ \/ _ |- _ => destruct H; discriminate end).
  - match goal with H : Num _ = Num _ |- _ => inversion H end.
    apply remainder_bounds. lra.
  - match goal with H : Num _ = Num _ |- _ => inversion H end.
    left. apply remainder_bounds. lra.
  - match goal with H : Num _ = Num _ |- _ => inversion H end.
    apply sqrt_pos.
Qed.

Lemma remainder_small x m : 0 <= x < m -> Vad.remainder x m = x.
Proof.
  intros [H0 Hm]. unfold Vad.remainder.
  rewrite (Zfloor_eq 0 (x / m)); [lra|].
  split.
  - apply Rmult_le_pos; [exact H0 | left; apply Rinv_0_lt_compat; lra].
  - apply Rmult_lt_reg_r with m; [lra|].
    unfold Rdiv. rewrite Rmult_assoc, Rinv_l by lra. lra.
Qed.

Lemma remainder_negative x m : - m <= x < 0 -> Vad.remainder x m = x + m.
Proof.
  intros [Hm H0]. unfold Vad.remainder.
  rewrite (Zfloor_eq (-1) (x / m)); [lra|].
  assert (0 < m) as Hpos by lra.
  assert (x = m * (x / m)) as Hx by (field; lra).
  set (q := x / m) in *. split; nra.
Qed.

Lemma rad2deg_half_turn : Vad.rad2deg PI = 180.
Proof. unfold Vad.rad2deg. field. apply PI_neq0. Qed.

Lemma rad2deg_quarter_turn : Vad.rad2deg (PI / 2) = 90.
Proof. unfold Vad.rad2deg. field. apply PI_neq0. Qed.

Lemma rad2deg_quarter_back : Vad.rad2deg (- (PI / 2)) = -90.
Proof. unfold Vad.rad2deg. field. apply PI_neq0. Qed.

Lemma rad2deg_zero : Vad.rad2deg 0 = 0.
Proof. unfold Vad.rad2deg. lra. Qed.

(** X14.  The direction follows the compass: a wind blowing from the north
    (v negative, u zero) has direction 0, from the east 90, from the south
    180 and from the west 270. *)
Theorem orientation_compass (s : R) :
  0 < s ->
  Vad.orientation (Num 0) (Num (- s)) = Num 0 /\
  Vad.orientation (Num (- s)) (Num 0) = Num 90 /\
  Vad.orientation (Num 0) (Num s) = Num 180 /\
  Vad.orientation (Num s) (Num 0) = Num 270.
Proof.
  intros Hs. rewrite !orientation_value. unfold Vad.arctan2.
  rewrite !Ropp_0, Ropp_involutive.
  destruct (Rlt_dec 0 s) as [_|H]; [|contradiction].
  destruct (Rlt_dec 0 0) as [H|_]; [lra|].
  destruct (Rlt_dec 0 (- s)) as [H|_]; [lra|].
  destruct (Rlt_dec (- s) 0) as [_|H]; [|lra].
  destruct (Rle_dec 0 0) as [_|H]; [|lra].
  replace (0 / s) with 0 by (field; lra).
  replace (0 / - s) with 0 by (field; lra).
  rewrite atan_0, Rplus_0_l.
  rewrite rad2deg_zero, rad2deg_quarter_turn, rad2deg_half_turn, rad2deg_quarter_back.
  rewrite !remainder_small by lra. rewrite remainder_negative by lra.
  repeat split; f_equal; lra.
Qed.

Lemma orientation_compass_witness :
  Vad.orientation (Num 0) (Num (- 5)) = Num 0 /\
  Vad.orientation (Num (- 5)) (Num 0) = Num 90 /\
  Vad.orientation (Num 0) (Num 5) = Num 180 /\
  Vad.orientation (Num 5) (Num 0) = Num 270.
Proof.
  apply (orientation_compass 5). lra.
Defined.

Lemma forallb_same_length (s0 : list cell) (rest : list (list cell)) :
  forallb (fun s => Nat.eqb (length s) (length s0)) rest = true <->
  (forall s, In s rest -> length s = length s0).
Proof.
  rewrite forallb_forall. split; intros H s Hs.
  - apply Nat.eqb_eq, H, Hs.
  - apply Nat.eqb_eq, H, Hs.
Qed.

(** X15.  For one or more retrieved profiles, all with as many entries as
    there are levels, the mean over the sweeps has one entry per level,
    and the entry of a level is NaN exactly when the retrieval gave NaN at
    that level in every sweep. *)
Theorem nanmean_axis0_levels (allsweeps : list (list cell)) (nlev : nat) :
  allsweeps <> [] -> (forall s, In s allsweeps -> length s = nlev) ->
  exists avg,
    Vad.nanmean_axis0 allsweeps = Some (Vad.Vector avg) /\
    length avg = nlev /\
    forall j, (j < nlev)%nat ->
      (nth j avg NaN = NaN <-> forall s, In s allsweeps -> nth j s NaN = NaN).
Proof.
  intros Hne Hlen. destruct allsweeps as [|s0 rest]; [contradiction|].
  assert (length s0 = nlev) as H0 by (apply Hlen; left; reflexivity).
  unfold Vad.nanmean_axis0.
  assert (forallb (fun s => Nat.eqb (length s) (length s0)) rest = true) as ->.
  { apply forallb_same_length. intros s Hs. rewrite H0. apply Hlen. right. exact Hs. }
  eexists. split; [reflexivity|]. rewrite length_map, length_seq.
  split; [exact H0|]. intros j Hj.
  rewrite (nth_indep _ NaN (Reduce.nanmean (Vad.level 0 (s0 :: rest))))
    by (rewrite length_map, length_seq; lia).
  rewrite (map_nth (fun j => Reduce.nanmean (Vad.level j (s0 :: rest)))).
  rewrite seq_nth by lia. cbn [Nat.add].
  rewrite nanmean_nan_values, values_nil_iff. unfold Vad.level. split.
  - intros H s Hs. apply H. apply in_map_iff. exists s. split; [reflexivity | exact Hs].
  - intros H c Hc. apply in_map_iff in Hc. destruct Hc as [s [<- Hs]]. apply H, Hs.
Qed.

Lemma nanmean_axis0_levels_witness :
  exists avg,
    Vad.nanmean_axis0 [[Num 3; NaN]; [Num 5; NaN]] = Some (Vad.Vector avg) /\
    length avg = 2%nat /\
    forall j, (j < 2)%nat ->
      (nth j avg NaN = NaN <->
       forall s, In s [[Num 3; NaN]; [Num 5; NaN]] -> nth j s NaN = NaN).
Proof.
  apply (nanmean_axis0_levels [[Num 3; NaN]; [Num 5; NaN]] 2).
  - discriminate.
  - intros s [<-|[<-|[]]]; reflexivity.
Defined.

(** X16.  The retrieval loop skips the first four files.  With four files
    or fewer no profile is retrieved and the mean is the single value NaN,
    not a profile; profiles of different lengths cannot be stacked. *)
Theorem vad_profiles_edge {file : Type} (wind_of : file -> list cell)
  (files_radar : list file) :
  length (Vad.vad_profiles wind_of files_radar) = (length files_radar - 4)%nat /\
  ((length files_radar <= 4)%nat ->
   Vad.nanmean_axis0 (Vad.vad_profiles wind_of files_radar)
   = Some (Vad.Scalar NaN)) /\
  (Vad.nanmean_axis0 (Vad.vad_profiles wind_of files_radar) = None <->
   exists f g, In f (skipn 4 files_radar) /\ In g (skipn 4 files_radar) /\
               length (wind_of f) <> length (wind_of g)).
Proof.
  unfold Vad.vad_profiles. split; [|split].
  - rewrite length_map, length_skipn. reflexivity.
  - intros Hn. rewrite skipn_all2 by exact Hn. reflexivity.
  - destruct (skipn 4 files_radar) as [|f0 rest]; cbn [map Vad.nanmean_axis0].
    + split; [discriminate | intros [f [g [[] _]]]].
    + destruct (forallb (fun s => Nat.eqb (length s) (length (wind_of f0)))
                  (map wind_of rest)) eqn:E.
      * split; [discriminate|]. intros [f [g [Hf [Hg Hfg]]]]. exfalso.
        rewrite forallb_same_length in E.
        assert (forall h, In h (f0 :: rest) -> length (wind_of h) = length (wind_of f0))
          as Hall.
        { intros h [<-|Hh]; [reflexivity|]. apply E, in_map, Hh. }
        apply Hfg. rewrite (Hall f Hf), (Hall g Hg). reflexivity.
      * split; [intros _ | reflexivity].
        assert (exists h, In h rest /\ length (wind_of h) <> length (wind_of f0))
          as [h [Hh Hneq]].
        { clear -E. induction rest as [|a rest IH]; [discriminate|].
          cbn [map forallb] in E. apply andb_false_iff in E.
          destruct E as [E|E].
          - exists a. split; [left; reflexivity | apply Nat.eqb_neq, E].
          - destruct (IH E) as [h [Hh Hn]]. exists h. split; [right|]; assumption. }
        exists h, f0. split; [right; exact Hh|]. split; [left; reflexivity | exact Hneq].
Qed.

(** ** Ranges *)

Lemma lt_ceiling (z : Z) (q : Q) : (z < Qceiling q)%Z <-> (inject_Z z < q)%Q.
Proof.
  split; intros H.
  - apply Qle_lt_trans with (inject_Z (Qceiling q - 1)); [|apply Qceiling_lt].
    rewrite <- Zle_Qle. lia.
  - rewrite Zlt_Qlt. apply Qlt_le_trans with q; [exact H | apply Qle_ceiling].
Qed.

Lemma below_stop_iff (start stop step x : Q) :
  (0 < step)%Q ->
  (x < (stop - start) / step)%Q <-> (start + x * step < stop)%Q.
Proof.
  intros Hs.
  assert (~ step == 0)%Q as Hne by (intros E; rewrite E in Hs; apply (Qlt_irrefl 0), Hs).
  split; intros H.
  - apply (Qmult_lt_r _ _ step Hs) in H.
    assert ((stop - start) / step * step == stop - start)%Q as E by (field; exact Hne).
    rewrite E in H. Lqa.lra.
  - apply Qlt_shift_div_l; [exact Hs | Lqa.lra].
Qed.

Lemma arange_value start stop step :
  (0 < step)%Q ->
  Arange.arange start stop step =
    Some (map (fun i => (start + inject_Z (Z.of_nat i) * step)%Q)
              (seq 0 (Z.to_nat (Qceiling ((stop - start) / step))))).
Proof.
  intros Hs. unfold Arange.arange.
  destruct (Qeq_bool step 0) eqn:E; [|reflexivity].
  apply Qeq_bool_eq in E. rewrite E in Hs. exfalso. apply (Qlt_irrefl 0), Hs.
Qed.

Lemma arange_nth start stop step l i :
  (0 < step)%Q -> Arange.arange start stop step = Some l ->
  (i < length l)%nat ->
  nth i l 0%Q = (start + inject_Z (Z.of_nat i) * step)%Q.
Proof.
  intros Hs Hl Hi. rewrite arange_value in Hl by exact Hs.
  injection Hl as <-. rewrite length_map, length_seq in Hi.
  rewrite (nth_indep _ 0%Q ((fun i => (start + inject_Z (Z.of_nat i) * step)%Q) 0%nat))
    by (rewrite length_map, length_seq; exact Hi).
  rewrite (map_nth (fun i => (start + inject_Z (Z.of_nat i) * step)%Q)).
  rewrite seq_nth by exact Hi. reflexivity.
Qed.

Lemma arange_length_iff start stop step l i :
  (0 < step)%Q -> Arange.arange start stop step = Some l ->
  (i < length l)%nat <-> (start + inject_Z (Z.of_nat i) * step < stop)%Q.
Proof.
  intros Hs Hl. rewrite arange_value in Hl by exact Hs.
  injection Hl as <-. rewrite length_map, length_seq.
  rewrite <- below_stop_iff by exact Hs. rewrite <- lt_ceiling. lia.
Qed.

(** X17.  For integer arguments with a positive step, step and extent
    below 2^52, the values are the terms start + i * step of the
    progression, and the array holds exactly those that lie below [stop]:
    it never reaches [stop] and leaves out no term under it. *)
Theorem arange_points (start stop step : Z) (l : list Q) :
  (0 < step < 2 ^ 52)%Z -> (Z.abs (stop - start) < 2 ^ 52)%Z ->
  Arange.arange (inject_Z start) (inject_Z stop) (inject_Z step) = Some l ->
  (forall i, (i < length l)%nat ->
     (nth i l 0 == inject_Z (start + Z.of_nat i * step))%Q) /\
  (forall i : nat,
     (i < length l)%nat <-> (start + Z.of_nat i * step < stop)%Z).
Proof.
  intros [Hs _] _ Hl.
  assert (0 < inject_Z step)%Q as Hq
    by (change (inject_Z 0 < inject_Z step)%Q; rewrite <- Zlt_Qlt; exact Hs).
  split; intros i.
  - intros Hi.
    rewrite (arange_nth (inject_Z start) (inject_Z stop) (inject_Z step) l i Hq Hl Hi).
    rewrite inject_Z_plus, inject_Z_mult. reflexivity.
  - rewrite (arange_length_iff (inject_Z start) (inject_Z stop) (inject_Z step) l i Hq Hl).
    rewrite <- inject_Z_mult, <- inject_Z_plus, <- Zlt_Qlt. reflexivity.
Qed.

Lemma arange_points_witness :
  (forall i, (i < 22)%nat ->
     (nth i [-30; -25; -20; -15; -10; -5; 0; 5; 10; 15; 20; 25; 30; 35; 40; 45;
             50; 55; 60; 65; 70; 75]%Q 0
      == inject_Z (-30 + Z.of_nat i * 5))%Q) /\
  (forall i : nat, (i < 22)%nat <-> (-30 + Z.of_nat i * 5 < 80)%Z).
Proof.
  apply (arange_points (-30) 80 5
           [-30; -25; -20; -15; -10; -5; 0; 5; 10; 15; 20; 25; 30; 35; 40; 45;
            50; 55; 60; 65; 70; 75]%Q); [lia | lia | reflexivity].
Defined.

Lemma length_by_threshold (L n : nat) :
  (forall i, (i < L)%nat <-> (i < n)%nat) -> L = n.
Proof.
  intros H. pose proof (H L) as HL. pose proof (H n) as Hn. lia.
Qed.

Lemma Q_one_pos : (0 < 1)%Q.
Proof. reflexivity. Qed.

(** X18.  With one tick per class label and the boundaries half a unit
    to either side, there is one more boundary than ticks, tick i is the
    class number i, and it lies strictly between boundaries i and i + 1:
    every class has a bin of its own. *)
Theorem class_bins {A : Type} (labels : list A) :
  exists t b,
    Arange.ticks labels = Some t /\ Arange.boundaries labels = Some b /\
    length t = length labels /\ length b = S (length labels) /\
    forall i, (i < length labels)%nat ->
      (nth i t 0 == inject_Z (Z.of_nat i))%Q /\
      (nth i b 0 < nth i t 0)%Q /\ (nth i t 0 < nth (S i) b 0)%Q.
Proof.
  unfold Arange.ticks, Arange.boundaries.
  set (n := length labels).
  pose proof (arange_value 0 (inject_Z (Z.of_nat n)) 1 Q_one_pos) as Ht.
  pose proof (arange_value (-1 # 2) (inject_Z (Z.of_nat n)) 1 Q_one_pos) as Hb.
  eexists. eexists. split; [exact Ht|]. split; [exact Hb|].
  match type of Ht with _ = Some ?l => set (t := l) in * end.
  match type of Hb with _ = Some ?l => set (b := l) in * end.
  assert (length t = n) as Hlt.
  { apply length_by_threshold. intros i.
    rewrite (arange_length_iff _ _ _ t i Q_one_pos Ht).
    split; intros H.
    - assert (inject_Z (Z.of_nat i) < inject_Z (Z.of_nat n))%Q as H' by Lqa.lra.
      rewrite <- Zlt_Qlt in H'. lia.
    - assert (inject_Z (Z.of_nat i) < inject_Z (Z.of_nat n))%Q as H'
          by (rewrite <- Zlt_Qlt; lia).
      Lqa.lra. }
  assert (length b = S n) as Hlb.
  { apply length_by_threshold. intros i.
    rewrite (arange_length_iff _ _ _ b i Q_one_pos Hb).
    split; intros H.
    - destruct (Nat.lt_ge_cases i (S n)) as [Hi|Hi]; [exact Hi | exfalso].
      assert (inject_Z (Z.of_nat n + 1) <= inject_Z (Z.of_nat i))%Q as H'
          by (rewrite <- Zle_Qle; lia).
      rewrite inject_Z_plus in H'. change (inject_Z 1) with 1%Q in H'. Lqa.lra.
    - assert (inject_Z (Z.of_nat i) <= inject_Z (Z.of_nat n))%Q as H'
          by (rewrite <- Zle_Qle; lia).
      Lqa.lra. }
  split; [exact Hlt|]. split; [exact Hlb|]. intros i Hi.
  rewrite (arange_nth _ _ _ t i Q_one_pos Ht) by lia.
  rewrite (arange_nth _ _ _ b i Q_one_pos Hb) by lia.
  rewrite (arange_nth _ _ _ b (S i) Q_one_pos Hb) by lia.
  rewrite Nat2Z.inj_succ. unfold Z.succ. rewrite inject_Z_plus.
  change (inject_Z 1) with 1%Q.
  split; [Lqa.lra|]. split; Lqa.lra.
Qed.
